(** * MazeGenerator (src/js/maze.js): a shallow embedding and its properties

    The class [MazeGenerator] of [src/js/maze.js] is embedded function by
    function, and so are the loops of the main application that read the
    grid it generates.  Conventions of the embedding:

    - JavaScript numbers that the class handles are integers; they are
      modelled as [Z].  [%] is [Z.rem] (the sign of the dividend), and
      [dir.dx / 2] is only ever applied to [0], [2] and [-2], where [Z.div]
      is exact.  A JavaScript number is an IEEE 754 double: sums and
      differences are exact as long as they stay within 2^53 in absolute
      value, and are rounded to the nearest double beyond.  [constructor] is
      written with the exact sums; [constructor_double] is the same code with
      the rounded ones, and the two agree on all inputs between -2^53 + 2 and
      2^53 ([constructor_double_exact]), far beyond any grid that fits in
      memory.
    - A row of the grid is a JavaScript array: an object whose properties are
      keyed by integers (a negative key such as [-1] is an ordinary property,
      not an element) together with its [length].  Reading a missing property
      gives [undefined], modelled as [None].
    - [this.grid] itself is only ever replaced by [[]], pushed to and read by
      index: it is a [list] of rows.  [this.grid[z]] is [undefined] when [z]
      is not an index of the list, and reading or writing a property of
      [undefined] throws a [TypeError].
    - [Math.random] is ambient state: a stream of draws threaded through the
      calls.  [Math.floor(Math.random() * n)] is an integer of [[0, n-1]];
      every sequence of such integers is covered by some stream.
    - [carvePassages] is recursive without a structural argument: it takes a
      fuel, and the theorems show which fuel is enough; a run that returns
      returns the same world with any larger fuel.  The call stack is taken
      to be deep enough for the recursion. *)

From stdpp Require Import base list gmap.
From Stdlib Require Import ZArith Lia.

Local Open Scope Z_scope.

(* [lia] with division and remainder by constants *)
Ltac Zify.zify_post_hook ::= Z.to_euclidean_division_equations.

(** ** Completions: normal return, exception, or fuel exhausted *)

Inductive exn : Type := TypeError.

Inductive completion (A : Type) : Type :=
| Normal (a : A)
| Throw (e : exn)
| OutOfFuel.

Arguments Normal {A} a.
Arguments Throw {A} e.
Arguments OutOfFuel {A}.

Definition bind {A B} (c : completion A) (k : A -> completion B) : completion B :=
  match c with
  | Normal a => k a
  | Throw e => Throw e
  | OutOfFuel => OutOfFuel
  end.

Notation "'do' x <- c ; k" := (bind c (fun x => k))
  (at level 10, x name, c at level 100, k at level 200).

(** [for (const a of l) body] over a state [S]. *)
Fixpoint forOf {A S : Type} (body : A -> S -> completion S) (l : list A) (s : S)
  : completion S :=
  match l with
  | [] => Normal s
  | a :: l' => do s' <- body a s ; forOf body l' s'
  end.

(** ** JavaScript arrays of numbers *)

Record JSArray : Type := { props : gmap Z Z; alength : Z }.

Definition arr_empty : JSArray := {| props := ∅; alength := 0 |}.

(** [a.push(v)] *)
Definition arr_push (v : Z) (a : JSArray) : JSArray :=
  {| props := <[alength a := v]> (props a); alength := alength a + 1 |}.

(** [a[k]] *)
Definition arr_get (k : Z) (a : JSArray) : option Z := props a !! k.

(** [a[k] = v]: an index at or past the end extends the array, any other
    key (a negative one) only adds a property. *)
Definition arr_set (k v : Z) (a : JSArray) : JSArray :=
  {| props := <[k := v]> (props a);
     alength := if 0 <=? k then Z.max (alength a) (k + 1) else alength a |}.

(** [o === n] for a number [n], [o] possibly [undefined]. *)
Definition strict_eq (o : option Z) (n : Z) : bool :=
  match o with
  | Some v => v =? n
  | None => false
  end.

(** ** Cell encoding *)

Definition PASSAGE : Z := 0.
Definition WALL : Z := 1.
Definition EXIT : Z := 2.

(** ** The random source *)

Definition Random : Type := nat -> nat.

(** [Math.floor(Math.random() * n)], for [n > 0]: the next draw, in [[0, n-1]]. *)
Definition random_floor (n : nat) (r : Random) : nat * Random :=
  ((r 0%nat) `mod` n, fun k => r (S k))%nat.

(** ** The class *)

Record point : Type := { px : Z; pz : Z }.
Record dir : Type := { dx : Z; dz : Z }.

Record MazeGenerator : Type := {
  width : Z;
  height : Z;
  grid : list JSArray;
  start : point;
  end_ : point
}.

(** The object together with the ambient random source. *)
Record World : Type := { this : MazeGenerator; rnd : Random }.

Definition set_grid (g : list JSArray) (m : MazeGenerator) : MazeGenerator :=
  {| width := width m; height := height m; grid := g;
     start := start m; end_ := end_ m |}.

(** [constructor(width, height)], with the sums [width + 1] and
    [this.width - 2] exact *)
Definition constructor (w h : Z) : MazeGenerator :=
  let w' := if Z.rem w 2 =? 0 then w + 1 else w in
  let h' := if Z.rem h 2 =? 0 then h + 1 else h in
  {| width := w'; height := h'; grid := [];
     start := {| px := 1; pz := 1 |};
     end_ := {| px := w' - 2; pz := h' - 2 |} |}.

(** *** The constructor on doubles

    The integers among the doubles are the integers up to 2^53 in absolute
    value and, from 2^e to 2^(e+1) for [e >= 53], the multiples of 2^(e-52):
    [spacing n] is the distance between the two doubles around the integer
    [n]. *)
Definition spacing (n : Z) : Z :=
  if Z.abs n <? 2 ^ 53 then 1 else 2 ^ (Z.log2 (Z.abs n) - 52).

(** The double nearest to the integer [n], the one with an even significand
    when [n] lies half way between two doubles (for [n] below 2^1024 in
    absolute value, where no double is infinite). *)
Definition round_double (n : Z) : Z :=
  let u := spacing n in
  let q := n / u in
  let r := n - q * u in
  if 2 * r <? u then q * u
  else if u <? 2 * r then (q + 1) * u
  else if Z.even q then q * u else (q + 1) * u.

(** [a + b] and [a - b] on doubles that are integers *)
Definition num_add (a b : Z) : Z := round_double (a + b).
Definition num_sub (a b : Z) : Z := round_double (a - b).

(** [constructor(width, height)], for arguments that are doubles with an
    integer value: [%] is exact on doubles, [+] and [-] round. *)
Definition constructor_double (w h : Z) : MazeGenerator :=
  let w' := if Z.rem w 2 =? 0 then num_add w 1 else w in
  let h' := if Z.rem h 2 =? 0 then num_add h 1 else h in
  {| width := w'; height := h'; grid := [];
     start := {| px := 1; pz := 1 |};
     end_ := {| px := num_sub w' 2; pz := num_sub h' 2 |} |}.

(** [g[z]]: [undefined] off the list. *)
Definition grid_row (g : list JSArray) (z : Z) : option JSArray :=
  if z <? 0 then None else g !! Z.to_nat z.

(** [g[z][x]] *)
Definition grid_get (g : list JSArray) (z x : Z) : completion (option Z) :=
  match grid_row g z with
  | None => Throw TypeError
  | Some row => Normal (arr_get x row)
  end.

(** [g[z][x] = v]: the row object is updated in place. *)
Definition grid_set (g : list JSArray) (z x v : Z) : completion (list JSArray) :=
  match grid_row g z with
  | None => Throw TypeError
  | Some row => Normal (<[Z.to_nat z := arr_set x v row]> g)
  end.

(** [this.grid[z][x] = v] *)
Definition assign (z x v : Z) (w : World) : completion World :=
  do g <- grid_set (grid (this w)) z x v ;
  Normal {| this := set_grid g (this w); rnd := rnd w |}.

(** [[shuffled[i], shuffled[j]] = [shuffled[j], shuffled[i]]], both indices
    in range (the only use). *)
Definition swap (i j : nat) (l : list dir) : list dir :=
  match l !! i, l !! j with
  | Some vi, Some vj => <[j := vi]> (<[i := vj]> l)
  | _, _ => l
  end.

(** The loop of [shuffleArray]: [for (let i = ...; i > 0; i--)]. *)
Fixpoint shuffle_loop (i : nat) (shuffled : list dir) (r : Random)
  : list dir * Random :=
  match i with
  | O => (shuffled, r)
  | S i' =>
      let (j, r') := random_floor (i + 1) r in
      shuffle_loop i' (swap i j shuffled) r'
  end.

(** [shuffleArray(array)] *)
Definition shuffleArray (array : list dir) (r : Random) : list dir * Random :=
  shuffle_loop (length array - 1) array r.

Definition directions : list dir :=
  [ {| dx := 0; dz := -2 |};   (* North *)
    {| dx := 2; dz := 0 |};    (* East *)
    {| dx := 0; dz := 2 |};    (* South *)
    {| dx := -2; dz := 0 |} ]. (* West *)

(** The condition of the [if] in [carvePassages], with the short circuit of
    [&&]: the grid is read only when the four comparisons hold. *)
Definition admissible (m : MazeGenerator) (newX newZ : Z) : completion bool :=
  if (0 <? newX) && (newX <? width m - 1) && (0 <? newZ) && (newZ <? height m - 1)
  then do c <- grid_get (grid m) newZ newX ; Normal (strict_eq c WALL)
  else Normal false.

(** The body of the [for] loop of [carvePassages(x, z)], for one direction;
    [carve] is the recursive call. *)
Definition carve_step (carve : Z -> Z -> World -> completion World)
    (x z : Z) (d : dir) (w : World) : completion World :=
  let newX := x + dx d in
  let newZ := z + dz d in
  do ok <- admissible (this w) newX newZ ;
  if ok : bool then
    do w' <- assign (z + dz d / 2) (x + dx d / 2) PASSAGE w ;
    carve newX newZ w'
  else Normal w.

(** [carvePassages(x, z)] *)
Fixpoint carvePassages (fuel : nat) (x z : Z) (w : World) : completion World :=
  match fuel with
  | O => OutOfFuel
  | S fuel' =>
      do w1 <- assign z x PASSAGE w ;
      let (dirs, r) := shuffleArray directions (rnd w1) in
      forOf (carve_step (carvePassages fuel') x z) dirs
            {| this := this w1; rnd := r |}
  end.

(** The row built by the inner loop of [generate]. *)
Definition wall_row (m : MazeGenerator) : JSArray :=
  Nat.iter (Z.to_nat (width m)) (arr_push WALL) arr_empty.

(** The grid built by the outer loop of [generate]. *)
Definition wall_grid (m : MazeGenerator) : list JSArray :=
  Nat.iter (Z.to_nat (height m)) (fun g => g ++ [wall_row m]) [].

(** [generate()]; the returned grid is [grid (this w')] of the final world. *)
Definition generate (fuel : nat) (w : World) : completion World :=
  let w0 := {| this := set_grid (wall_grid (this w)) (this w); rnd := rnd w |} in
  do w1 <- carvePassages fuel 1 1 w0 ;
  do w2 <- assign (pz (start (this w1))) (px (start (this w1))) PASSAGE w1 ;
  do w3 <- assign (pz (end_ (this w2))) (px (end_ (this w2))) PASSAGE w2 ;
  assign (pz (end_ (this w3))) (px (end_ (this w3))) EXIT w3.

Definition getStart (m : MazeGenerator) : point := start m.
Definition getEnd (m : MazeGenerator) : point := end_ m.
Definition getWidth (m : MazeGenerator) : Z := width m.
Definition getHeight (m : MazeGenerator) : Z := height m.

Definition out_of_bounds (m : MazeGenerator) (x z : Z) : bool :=
  (x <? 0) || (x >=? width m) || (z <? 0) || (z >=? height m).

(** [isWall(x, z)] *)
Definition isWall (m : MazeGenerator) (x z : Z) : completion bool :=
  if out_of_bounds m x z then Normal true
  else do c <- grid_get (grid m) z x ; Normal (strict_eq c WALL).

(** [isExit(x, z)] *)
Definition isExit (m : MazeGenerator) (x z : Z) : completion bool :=
  if out_of_bounds m x z then Normal false
  else do c <- grid_get (grid m) z x ; Normal (strict_eq c EXIT).

(** A fixed random source for the concrete runs below. *)
Definition rnd0 : Random := fun k => k.

(** A fresh instance with the fixed random source, and the world after
    [generate()] on it. *)
Definition sample_world (w h : Z) : World :=
  {| this := constructor w h; rnd := rnd0 |}.

Definition sample_maze (w h : Z) : World :=
  match generate (Z.to_nat (w * h + w + h + 1)) (sample_world w h) with
  | Normal w' => w'
  | _ => sample_world w h
  end.

(** * The vocabulary of the properties *)

(** ** Counting over a list *)

Fixpoint countb {A : Type} (f : A -> bool) (l : list A) : nat :=
  match l with
  | [] => O
  | a :: l' => ((if f a then 1 else 0) + countb f l')%nat
  end.

Definition b2n (b : bool) : nat := if b then 1%nat else 0%nat.

(** ** The passage graph of a set of cells *)

Abbreviation coord := (Z * Z)%type.

(** All coordinates [(x, z)] of a grid of [W] columns and [H] rows, row by
    row. *)
Definition cells (W H : Z) : list coord :=
  z ← seqZ 0 H; (fun x => (x, z)) <$> seqZ 0 W.

Definition inside (W H x z : Z) : Prop := 0 <= x < W /\ 0 <= z < H.
Definition interior (W H x z : Z) : Prop := 0 < x < W - 1 /\ 0 < z < H - 1.

(** A set of cells is a predicate [p x z]. *)
Definition cellset : Type := Z -> Z -> bool.

Definition at_ (p : cellset) (c : coord) : bool := p c.1 c.2.
(** The open adjacency of a cell with its right, resp. lower, neighbour. *)
Definition hedge (p : cellset) (c : coord) : bool := p c.1 c.2 && p (c.1 + 1) c.2.
Definition vedge (p : cellset) (c : coord) : bool := p c.1 c.2 && p c.1 (c.2 + 1).

(** Number of cells of the grid that are in [p]. *)
Definition nodes (W H : Z) (p : cellset) : nat := countb (at_ p) (cells W H).
(** Number of unordered pairs of 4-adjacent cells of the grid both in [p]. *)
Definition edges (W H : Z) (p : cellset) : nat :=
  (countb (hedge p) (cells W H) + countb (vedge p) (cells W H))%nat.

Definition adjacent (a b : coord) : Prop :=
  (a.2 = b.2 /\ (a.1 = b.1 + 1 \/ b.1 = a.1 + 1)) \/
  (a.1 = b.1 /\ (a.2 = b.2 + 1 \/ b.2 = a.2 + 1)).

(** [reach p a b]: a walk from [a] to [b] through 4-adjacent cells of [p]. *)
Inductive reach (p : cellset) : coord -> coord -> Prop :=
| reach_here a : at_ p a = true -> reach p a a
| reach_step a b c : reach p a b -> adjacent b c -> at_ p c = true -> reach p a c.

(** [p] with the cell [(cx, cz)] added. *)
Definition add (cx cz : Z) (p : cellset) : cellset :=
  fun x z => p x z || ((x =? cx) && (z =? cz)).

Definition degree (p : cellset) (x z : Z) : nat :=
  (b2n (p (x + 1)%Z z) + b2n (p (x - 1)%Z z)
   + b2n (p x (z + 1)%Z) + b2n (p x (z - 1)%Z))%nat.

Definition confined (W H : Z) (p : cellset) : Prop :=
  forall x z, p x z = true -> inside W H x z.

Definition nowhere : cellset := fun _ _ => false.

(** The invariant of carving.  Rooms are the cells with both coordinates
    odd; a cell with exactly one odd coordinate lies between two rooms.  The
    open cells stay strictly inside the border, never include a cell with
    both coordinates even, include a cell between two rooms only together
    with both rooms, and form a tree in which every cell is reached from
    [(1, 1)]. *)
Record tree_like (W H : Z) (p : cellset) : Prop := {
  tl_interior : forall x z, p x z = true -> interior W H x z;
  tl_parity : forall x z, p x z = true -> x mod 2 = 1 \/ z mod 2 = 1;
  tl_link_v : forall x z, p x z = true -> z mod 2 = 0 ->
              p x (z - 1) = true /\ p x (z + 1) = true;
  tl_link_h : forall x z, p x z = true -> x mod 2 = 0 ->
              p (x - 1) z = true /\ p (x + 1) z = true;
  tl_edges : (edges W H p + 1 = nodes W H p)%nat;
  tl_conn : forall x z, p x z = true -> reach p (1, 1) (x, z)
}.

(** A room is closed when carving has looked at its four neighbour rooms:
    those inside the border are open. *)
Definition closed_room (W H : Z) (p : cellset) (x z : Z) : Prop :=
  forall d, d ∈ directions -> interior W H (x + dx d) (z + dz d) ->
            p (x + dx d) (z + dz d) = true.

(** ** The grid as a set of cells *)

(** The value stored at [(x, z)], [None] when the row or the property is
    missing. *)
Definition cell (m : MazeGenerator) (x z : Z) : option Z :=
  match grid_row (grid m) z with
  | Some row => arr_get x row
  | None => None
  end.

(** The cells of the grid of kind Passage or Exit. *)
Definition nonwall (m : MazeGenerator) : cellset :=
  fun x z =>
    negb (out_of_bounds m x z)
    && (strict_eq (cell m x z) PASSAGE || strict_eq (cell m x z) EXIT).

(** What [carvePassages] and the assignments leave alone. *)
Definition frame (m m' : MazeGenerator) : Prop :=
  width m' = width m /\ height m' = height m /\ start m' = start m /\
  end_ m' = end_ m /\ length (grid m') = length (grid m).

(** The instance after the two loops at the start of [generate]. *)
Definition fresh (m : MazeGenerator) : MazeGenerator := set_grid (wall_grid m) m.

Definition rows_ok (m : MazeGenerator) : Prop :=
  length (grid m) = Z.to_nat (height m).

(** What the constructor establishes and no method changes. *)
Record instance (m : MazeGenerator) : Prop := {
  in_width : width m mod 2 = 1;
  in_height : height m mod 2 = 1;
  in_start : start m = {| px := 1; pz := 1 |};
  in_end : end_ m = {| px := width m - 2; pz := height m - 2 |}
}.

(** ** The states of a run of [carvePassages] *)

(** A grid of [W] by [H] cells that hold Passage or Wall. *)
Record grid_ok (W H : Z) (m : MazeGenerator) : Prop := {
  ok_width : width m = W;
  ok_height : height m = H;
  ok_rows : length (grid m) = Z.to_nat H;
  ok_vals : forall x z, inside W H x z ->
                        cell m x z = Some PASSAGE \/ cell m x z = Some WALL
}.

Definition cap (W H : Z) : nat := (Z.to_nat H * Z.to_nat W)%nat.

Definition grows (m m' : MazeGenerator) : Prop :=
  forall a b, nonwall m a b = true -> nonwall m' a b = true.

(** What a run of [carvePassages] or of part of its loop has done between
    [m] and [m']. *)
Record carved (W H : Z) (m m' : MazeGenerator) : Prop := {
  cv_frame : frame m m';
  cv_ok : grid_ok W H m';
  cv_tree : tree_like W H (nonwall m');
  cv_grows : grows m m';
  cv_closed : forall a b, a mod 2 = 1 -> b mod 2 = 1 -> nonwall m' a b = true ->
                          nonwall m a b = true \/ closed_room W H (nonwall m') a b
}.

(** The precondition of a call [carvePassages(x, z)]: a closed room inside
    the border, whose opening restores the invariant, and enough fuel for
    the cells that are still closed. *)
Record callable (W H : Z) (fuel : nat) (x z : Z) (m : MazeGenerator) : Prop := {
  ca_ok : grid_ok W H m;
  ca_room : x mod 2 = 1 /\ z mod 2 = 1;
  ca_interior : interior W H x z;
  ca_wall : nonwall m x z = false;
  ca_tree : tree_like W H (add x z (nonwall m));
  ca_fuel : (cap W H <= fuel + nodes W H (nonwall m))%nat
}.

Definition carve_ok (W H : Z) (fuel : nat) : Prop :=
  forall x z w, callable W H fuel x z (this w) ->
    exists w', carvePassages fuel x z w = Normal w' /\
               carved W H (this w) (this w') /\
               nonwall (this w') x z = true.

(** ** The generated maze *)

(** The facts about the grid [g] that [generate] returns on the instance
    [m]. *)
Record generated (m g : MazeGenerator) : Prop := {
  gen_width : width g = width m;
  gen_height : height g = height m;
  gen_start : start g = {| px := 1; pz := 1 |};
  gen_end : end_ g = {| px := width m - 2; pz := height m - 2 |};
  gen_rows : rows_ok g;
  gen_kinds : forall x z, inside (width m) (height m) x z ->
      cell g x z = Some PASSAGE \/ cell g x z = Some WALL \/ cell g x z = Some EXIT;
  gen_exit : forall x z, inside (width m) (height m) x z ->
      (cell g x z = Some EXIT <-> x = width m - 2 /\ z = height m - 2);
  gen_tree : tree_like (width m) (height m) (nonwall g);
  gen_rooms : forall x z, x mod 2 = 1 -> z mod 2 = 1 ->
      interior (width m) (height m) x z -> nonwall g x z = true
}.

(** Enough fuel for [generate] on the instance [m]: one unit per cell. *)
Definition enough (fuel : nat) (m : MazeGenerator) : Prop :=
  (Z.to_nat (height m) * Z.to_nat (width m) <= fuel)%nat.

(** The non-wall cells of [g] contain the start and the exit, are all reached
    from the start through non-wall cells, and have one adjacency less than
    there are cells. *)
Definition perfect_maze (g : MazeGenerator) : Prop :=
  nonwall g (px (getStart g)) (pz (getStart g)) = true /\
  nonwall g (px (getEnd g)) (pz (getEnd g)) = true /\
  (forall x z, nonwall g x z = true ->
               reach (nonwall g) (px (getStart g), pz (getStart g)) (x, z)) /\
  Z.of_nat (edges (getWidth g) (getHeight g) (nonwall g))
  = Z.of_nat (nodes (getWidth g) (getHeight g) (nonwall g)) - 1.

Definition on_border (g : MazeGenerator) (x z : Z) : Prop :=
  inside (width g) (height g) x z /\
  (x = 0 \/ x = width g - 1 \/ z = 0 \/ z = height g - 1).

(** Number of cells of the grid of kind Exit. *)
Definition exits (g : MazeGenerator) : nat :=
  countb (fun c => strict_eq (cell g c.1 c.2) EXIT) (cells (width g) (height g)).

(** ** Random sources with given first draws *)

#[global] Instance dir_eq_dec : EqDecision dir.
Proof. solve_decision. Defined.

(** The random source whose draws are [js], then 0 for ever. *)
Definition draws (js : list nat) : Random := fun k => default 0%nat (js !! k).

(** The results of [shuffleArray] on the four directions for every triple of
    values that the three draws [Math.floor(Math.random() * (i + 1))],
    [i = 3, 2, 1], can take. *)
Definition orderings : list (list dir) :=
  a ← seq 0 4; b ← seq 0 3; c ← seq 0 2;
  [(shuffleArray directions (draws [a; b; c])).1].

(** ** The shape of the grid *)

(** A dense array of length [n]: the indices [0 .. n-1] hold a value and
    there is no other property. *)
Definition dense (n : Z) (a : JSArray) : Prop :=
  alength a = n /\ forall k, is_Some (arr_get k a) <-> 0 <= k < n.

(** A grid of [height] rows that are dense arrays of length [width]. *)
Definition matrix (m : MazeGenerator) : Prop :=
  length (grid m) = Z.to_nat (height m) /\ Forall (dense (width m)) (grid m).

(** ** Counting rooms, doors and walls *)

(** Number of cells of the grid of kind Wall. *)
Definition walls (g : MazeGenerator) : nat :=
  countb (fun c => strict_eq (cell g c.1 c.2) WALL) (cells (width g) (height g)).

(** The open cells of [p] by the parity of their coordinates: rooms, and
    cells between two rooms of a row, resp. of a column. *)
Definition room (p : cellset) (c : coord) : bool :=
  p c.1 c.2 && (c.1 mod 2 =? 1) && (c.2 mod 2 =? 1).

Definition hdoor (p : cellset) (c : coord) : bool := p c.1 c.2 && (c.1 mod 2 =? 0).

Definition vdoor (p : cellset) (c : coord) : bool := p c.1 c.2 && (c.2 mod 2 =? 0).

(** Number of open rooms of the grid. *)
Definition roomcount (m : MazeGenerator) : nat :=
  countb (room (nonwall m)) (cells (width m) (height m)).

(** ** The main application: the loops of [DungeonMaze] over the grid

    [DungeonMaze] (the main application) keeps the arguments it passes to
    the constructor of [MazeGenerator] as [mazeWidth] and [mazeHeight], the
    result of [generate()] as [maze], and reads [maze] directly.  Its calls
    to the rendering library are recorded by the grid data they are made
    with. *)

Definition cellSize : Z := 2.

Definition torchInterval : Z := 6.

(** The first pair of loops of [generateMaze]: [wallCount]. *)
Definition count_walls (maze : list JSArray) (mazeWidth mazeHeight : Z)
  : completion Z :=
  forOf (fun z wallCount =>
           forOf (fun x wallCount =>
                    do c <- grid_get maze z x ;
                    Normal (if strict_eq c WALL then wallCount + 1 else wallCount))
                 (seqZ 0 mazeWidth) wallCount)
        (seqZ 0 mazeHeight) 0.

(** A call [wallMesh.setMatrixAt(instanceIndex, matrix)], the matrix set to
    the position [(x * cellSize, wallHeight / 2, z * cellSize)]. *)
Record placement : Type := { at_index : Z; at_x : Z; at_z : Z }.

(** The second pair of loops of [generateMaze]: the final [instanceIndex]
    and the calls of [setMatrixAt], in order. *)
Definition place_walls (maze : list JSArray) (mazeWidth mazeHeight : Z)
  : completion (Z * list placement) :=
  forOf (fun z s =>
           forOf (fun x s =>
                    do c <- grid_get maze z x ;
                    Normal (if strict_eq c WALL
                            then (s.1 + 1,
                                  s.2 ++ [{| at_index := s.1;
                                             at_x := x * cellSize;
                                             at_z := z * cellSize |}])
                            else s))
                 (seqZ 0 mazeWidth) s)
        (seqZ 0 mazeHeight) (0, []).

(** The values of [i] in [for (let i = from; i < bound; i += step)], at most
    [n] of them. *)
Fixpoint stride (n : nat) (i bound step : Z) : list Z :=
  match n with
  | O => []
  | S n' => if i <? bound then i :: stride n' (i + step) bound step else []
  end.

(** The array [positions] of [addTorches]. *)
Definition positions : list dir :=
  [ {| dx := 1; dz := 0 |}; {| dx := -1; dz := 0 |};
    {| dx := 0; dz := 1 |}; {| dx := 0; dz := -1 |} ].

(** The loop [for (const pos of positions)] of [addTorches], left at the
    first [pos] with a wall at [(x + pos.dx, z + pos.dz)] by [break]. *)
Fixpoint first_wall (maze : list JSArray) (mazeWidth mazeHeight x z : Z)
    (ps : list dir) : completion (option dir) :=
  match ps with
  | [] => Normal None
  | pos :: ps' =>
      let checkX := x + dx pos in
      let checkZ := z + dz pos in
      do hit <- (if (checkX >=? 0) && (checkX <? mazeWidth)
                    && (checkZ >=? 0) && (checkZ <? mazeHeight)
                 then do c <- grid_get maze checkZ checkX ; Normal (strict_eq c WALL)
                 else Normal false) ;
      if hit : bool then Normal (Some pos)
      else first_wall maze mazeWidth mazeHeight x z ps'
  end.

(** A torch light pushed on [torchLights]: the cell [(x, z)] it is added
    for and the [pos] it is placed with, which give its position
    [(x * cellSize - pos.dx * 0.3, wallHeight * 0.7, z * cellSize - pos.dz * 0.3)]. *)
Record torch : Type := { torch_x : Z; torch_z : Z; torch_pos : dir }.

(** [addTorches()]: the array [torchLights] it builds. *)
Definition addTorches (maze : list JSArray) (mazeWidth mazeHeight : Z)
  : completion (list torch) :=
  forOf (fun z torchLights =>
           forOf (fun x torchLights =>
                    do c <- grid_get maze z x ;
                    if strict_eq c PASSAGE then
                      do side <- first_wall maze mazeWidth mazeHeight x z positions ;
                      match side with
                      | Some pos =>
                          Normal (torchLights
                                  ++ [{| torch_x := x; torch_z := z; torch_pos := pos |}])
                      | None => Normal torchLights
                      end
                    else Normal torchLights)
                 (stride (Z.to_nat mazeWidth) 1 (mazeWidth - 1) torchInterval)
                 torchLights)
        (stride (Z.to_nat mazeHeight) 1 (mazeHeight - 1) torchInterval) [].

(** The wall cells of the grid, row by row. *)
Definition wall_cells (g : MazeGenerator) : list coord :=
  filter (fun c => cell g c.1 c.2 = Some WALL) (cells (width g) (height g)).

Definition placed (i : Z) (l : list coord) : list placement :=
  imap (fun k c => {| at_index := i + Z.of_nat k;
                      at_x := c.1 * cellSize; at_z := c.2 * cellSize |}) l.

(** The first [pos] of [ps] with a wall of the grid at [(x, z) + pos]. *)
Definition wall_side (g : MazeGenerator) (x z : Z) (ps : list dir) : option dir :=
  head (filter (fun pos => out_of_bounds g (x + dx pos) (z + dz pos) = false /\
                           cell g (x + dx pos) (z + dz pos) = Some WALL) ps).

(** The cells that [addTorches] looks at, in its order. *)
Definition sampled (mazeWidth mazeHeight : Z) : list coord :=
  z ← stride (Z.to_nat mazeHeight) 1 (mazeHeight - 1) torchInterval;
  (fun x => (x, z)) <$> stride (Z.to_nat mazeWidth) 1 (mazeWidth - 1) torchInterval.

(** The torch of a cell, if it gets one. *)
Definition torch_of (g : MazeGenerator) (c : coord) : list torch :=
  if strict_eq (cell g c.1 c.2) PASSAGE then
    match wall_side g c.1 c.2 positions with
    | Some pos => [{| torch_x := c.1; torch_z := c.2; torch_pos := pos |}]
    | None => []
    end
  else [].

(** * Properties *)

Lemma forOf_cons {A S : Type} (body : A -> S -> completion S) a l s :
  forOf body (a :: l) s = do s' <- body a s ; forOf body l s'.
Proof. reflexivity. Qed.

Lemma carvePassages_S fuel x z w :
  carvePassages (S fuel) x z w
  = do w1 <- assign z x PASSAGE w ;
    let (dirs, r) := shuffleArray directions (rnd w1) in
    forOf (carve_step (carvePassages fuel) x z) dirs {| this := this w1; rnd := r |}.
Proof. reflexivity. Qed.

(** ** Counting over a list *)

Lemma countb_le_length {A} (f : A -> bool) l : (countb f l <= length l)%nat.
Proof. induction l as [|a l IH]; simpl; [lia|]. destruct (f a); lia. Qed.

Lemma countb_ext {A} (f g : A -> bool) l :
  (forall a, a ∈ l -> f a = g a) -> countb f l = countb g l.
Proof.
  induction l as [|a l IH]; intros Hfg; simpl; [done|].
  rewrite (Hfg a) by (left). rewrite IH; [done|].
  intros b Hb. apply Hfg. by right.
Qed.

Lemma countb_mono {A} (f g : A -> bool) l :
  (forall a, a ∈ l -> f a = true -> g a = true) -> (countb f l <= countb g l)%nat.
Proof.
  induction l as [|a l IH]; intros Hfg; simpl; [lia|].
  assert (countb f l <= countb g l)%nat by (apply IH; intros b Hb; apply Hfg; by right).
  destruct (f a) eqn:Hf; [rewrite (Hfg a) by (done || left)|destruct (g a)]; lia.
Qed.

Lemma countb_lt_length {A} (f : A -> bool) l c :
  c ∈ l -> f c = false -> (countb f l < length l)%nat.
Proof.
  induction 1 as [c l|c a l Hin IH]; intros Hc; simpl.
  - rewrite Hc. pose proof (countb_le_length f l). lia.
  - specialize (IH Hc). destruct (f a); lia.
Qed.

Lemma countb_plus3 {A} (f g h k : A -> bool) l :
  (forall a, a ∈ l -> b2n (f a) = (b2n (g a) + b2n (h a) + b2n (k a))%nat) ->
  countb f l = (countb g l + countb h l + countb k l)%nat.
Proof.
  induction l as [|a l IH]; intros Hsum; simpl; [done|].
  rewrite IH by (intros b Hb; apply Hsum; by right).
  specialize (Hsum a ltac:(left)). unfold b2n in Hsum.
  destruct (f a), (g a), (h a), (k a); simpl in *; lia.
Qed.

Lemma countb_never {A} (f : A -> bool) l :
  (forall a, a ∈ l -> f a = false) -> countb f l = 0%nat.
Proof.
  induction l as [|a l IH]; intros Hf; simpl; [done|].
  rewrite (Hf a) by left. rewrite IH; [done|]. intros b Hb. apply Hf. by right.
Qed.

(** A predicate that holds at [c] only is counted once in a duplicate-free
    list, when [c] is in the list. *)
Lemma countb_single {A} (f : A -> bool) l c :
  NoDup l -> c ∈ l -> f c = true -> (forall a, a ∈ l -> a <> c -> f a = false) ->
  countb f l = 1%nat.
Proof.
  induction 1 as [|a l Hnotin Hnd IH]; intros Hin Hc Hother.
  - by apply elem_of_nil in Hin.
  - simpl. apply elem_of_cons in Hin as [->|Hin].
    + rewrite Hc. rewrite countb_never; [done|].
      intros b Hb. apply Hother; [by right|]. intros ->. done.
    + rewrite (Hother a) by (left || (intros ->; done)).
      rewrite IH; [done..|]. intros b Hb. apply Hother. by right.
Qed.

(** ** The passage graph of a set of cells *)

Section Graph.
(** Dimensions of the grid. *)
Variables W H : Z.

Lemma elem_of_cells x z : (x, z) ∈ (cells W H) <-> inside W H x z.
Proof.
  unfold cells, inside. rewrite list_elem_of_bind. split.
  - intros (z' & Hx & Hz). apply list_elem_of_fmap in Hx as (x' & Heq & Hx).
    inversion Heq; subst. apply elem_of_seqZ in Hx, Hz. lia.
  - intros [Hx Hz]. exists z. split; [|apply elem_of_seqZ; lia].
    apply list_elem_of_fmap. exists x. split; [done|apply elem_of_seqZ; lia].
Qed.

Lemma NoDup_cells : NoDup (cells W H).
Proof.
  unfold cells. apply NoDup_bind; [| |apply NoDup_seqZ].
  - intros z1 z2 c _ _ H1 H2.
    apply list_elem_of_fmap in H1 as (x1 & -> & _).
    apply list_elem_of_fmap in H2 as (x2 & Heq & _). by inversion Heq.
  - intros z _. apply NoDup_fmap_2; [|apply NoDup_seqZ].
    intros x1 x2 Heq. by inversion Heq.
Qed.

Lemma length_cells : length (cells W H) = (Z.to_nat H * Z.to_nat W)%nat.
Proof.
  unfold cells. rewrite <- (length_seqZ 0 H). generalize (seqZ 0 H). intros l.
  induction l as [|z l IH]; [done|].
  rewrite bind_cons, length_app, length_fmap, length_seqZ.
  rewrite IH. simpl. lia.
Qed.

Lemma nodes_ext p q : (forall x z, p x z = q x z) -> nodes W H p = nodes W H q.
Proof. intros Hpq. apply countb_ext. intros [x z] _. apply Hpq. Qed.

Lemma edges_ext p q : (forall x z, p x z = q x z) -> edges W H p = edges W H q.
Proof.
  intros Hpq. unfold edges. f_equal; apply countb_ext; intros [x z] _;
    unfold hedge, vedge; simpl; by rewrite !Hpq.
Qed.

Lemma reach_mono p q a b :
  (forall x z, p x z = true -> q x z = true) -> reach p a b -> reach q a b.
Proof.
  intros Hpq. induction 1 as [[x z] Ha|a b [x z] _ IH Hadj Hc].
  - apply reach_here. by apply Hpq.
  - eapply reach_step; [apply IH|done|by apply Hpq].
Qed.

Lemma nodes_mono p q :
  (forall x z, p x z = true -> q x z = true) -> (nodes W H p <= nodes W H q)%nat.
Proof. intros Hpq. apply countb_mono. intros [x z] _. apply Hpq. Qed.

Lemma nodes_lt p x z :
  inside W H x z -> p x z = false -> (nodes W H p < Z.to_nat H * Z.to_nat W)%nat.
Proof.
  intros Hin Hp. rewrite <- length_cells.
  apply (countb_lt_length _ _ (x, z)); [by apply elem_of_cells|done].
Qed.

Lemma nodes_add p x z :
  inside W H x z -> p x z = false -> nodes W H (add x z p) = S (nodes W H p).
Proof.
  intros Hin Hp. unfold nodes.
  rewrite (countb_plus3 _ (at_ p) (fun c => (c.1 =? x) && (c.2 =? z)) (fun _ => false)).
  - rewrite (countb_single (fun c => (c.1 =? x) && (c.2 =? z)) _ (x, z)).
    + rewrite (countb_never (fun _ => false)) by done. lia.
    + apply NoDup_cells.
    + by apply elem_of_cells.
    + simpl. by rewrite !Z.eqb_refl.
    + intros [a b] _ Hne. simpl.
      destruct (Z.eqb_spec a x), (Z.eqb_spec b z); subst; done.
  - intros [a b] _. unfold at_, add. simpl.
    destruct (Z.eqb_spec a x), (Z.eqb_spec b z); simpl;
      try (subst; rewrite Hp; simpl; lia); destruct (p a b); simpl; lia.
Qed.

Lemma count_point x z (b : bool) :
  (b = true -> inside W H x z) ->
  countb (fun c => (c.1 =? x) && (c.2 =? z) && b) (cells W H) = b2n b.
Proof.
  intros Hin. destruct b; simpl.
  - apply (countb_single _ _ (x, z)).
    + apply NoDup_cells.
    + apply elem_of_cells. by apply Hin.
    + simpl. by rewrite !Z.eqb_refl.
    + intros [a c] _ Hne. simpl.
      destruct (Z.eqb_spec a x), (Z.eqb_spec c z); subst; done.
  - apply countb_never. intros a _. by rewrite andb_false_r.
Qed.

Lemma hedge_add p cx cz :
  inside W H cx cz -> p cx cz = false -> confined W H p ->
  countb (hedge (add cx cz p)) (cells W H)
  = (countb (hedge p) (cells W H) + b2n (p (cx + 1)%Z cz) + b2n (p (cx - 1)%Z cz))%nat.
Proof.
  intros Hin Hp Hconf.
  rewrite (countb_plus3 _ (hedge p)
             (fun c => (c.1 =? cx) && (c.2 =? cz) && p (cx + 1) cz)
             (fun c => (c.1 =? cx - 1) && (c.2 =? cz) && p (cx - 1) cz)).
  - rewrite !count_point; [done|intros Hb; by apply Hconf|done].
  - intros [a b] _. unfold hedge, add. simpl.
    destruct (Z.eqb_spec a cx) as [->|], (Z.eqb_spec b cz) as [->|]; simpl.
    + rewrite Hp. simpl. destruct (Z.eqb_spec cx (cx - 1)); [lia|].
      destruct (Z.eqb_spec (cx + 1) cx); [lia|]. simpl.
      rewrite orb_false_r. destruct (p (cx + 1) cz); simpl; lia.
    + rewrite !andb_false_r, !orb_false_r. simpl. destruct (_ && _); simpl; lia.
    + destruct (Z.eqb_spec a (cx - 1)) as [->|]; simpl.
      * replace (cx - 1 + 1) with cx by lia. rewrite Hp, Z.eqb_refl. simpl.
        rewrite orb_false_r, andb_true_r. destruct (p (cx - 1) cz); simpl; lia.
      * destruct (Z.eqb_spec (a + 1) cx); [lia|]. simpl.
        rewrite !orb_false_r. destruct (_ && _); simpl; lia.
    + rewrite !andb_false_r, !orb_false_r. simpl. destruct (_ && _); simpl; lia.
Qed.

Lemma vedge_add p cx cz :
  inside W H cx cz -> p cx cz = false -> confined W H p ->
  countb (vedge (add cx cz p)) (cells W H)
  = (countb (vedge p) (cells W H) + b2n (p cx (cz + 1)%Z) + b2n (p cx (cz - 1)%Z))%nat.
Proof.
  intros Hin Hp Hconf.
  rewrite (countb_plus3 _ (vedge p)
             (fun c => (c.1 =? cx) && (c.2 =? cz) && p cx (cz + 1))
             (fun c => (c.1 =? cx) && (c.2 =? cz - 1) && p cx (cz - 1))).
  - rewrite !count_point; [done|intros Hb; by apply Hconf|done].
  - intros [a b] _. unfold vedge, add. simpl.
    destruct (Z.eqb_spec a cx) as [->|], (Z.eqb_spec b cz) as [->|]; simpl.
    + rewrite Hp. simpl. destruct (Z.eqb_spec cz (cz - 1)); [lia|].
      destruct (Z.eqb_spec (cz + 1) cz); [lia|]. simpl.
      rewrite orb_false_r. destruct (p cx (cz + 1)); simpl; lia.
    + destruct (Z.eqb_spec b (cz - 1)) as [->|]; simpl.
      * replace (cz - 1 + 1) with cz by lia. rewrite Hp, Z.eqb_refl. simpl.
        rewrite orb_false_r, andb_true_r. destruct (p cx (cz - 1)); simpl; lia.
      * destruct (Z.eqb_spec (b + 1) cz); [lia|]. simpl.
        rewrite !orb_false_r. destruct (_ && _); simpl; lia.
    + rewrite !orb_false_r. simpl. destruct (_ && _); simpl; lia.
    + rewrite !orb_false_r. simpl. destruct (_ && _); simpl; lia.
Qed.

(** Adding a cell adds as many edges as it has neighbours in the set. *)
Lemma edges_add p cx cz :
  inside W H cx cz -> p cx cz = false -> confined W H p ->
  edges W H (add cx cz p) = (edges W H p + degree p cx cz)%nat.
Proof.
  intros Hin Hp Hconf. unfold edges, degree.
  rewrite hedge_add, vedge_add by done. lia.
Qed.

Lemma add_keeps cx cz p x z : p x z = true -> add cx cz p x z = true.
Proof. unfold add. intros ->. done. Qed.

Lemma add_self cx cz p : add cx cz p cx cz = true.
Proof. unfold add. rewrite !Z.eqb_refl. apply orb_true_r. Qed.

Lemma add_true cx cz p x z :
  add cx cz p x z = true <-> p x z = true \/ (x = cx /\ z = cz).
Proof. unfold add. rewrite orb_true_iff, andb_true_iff, !Z.eqb_eq. done. Qed.

Lemma dir_cases d :
  d ∈ directions ->
  (dx d = 0 /\ dz d = -2) \/ (dx d = 2 /\ dz d = 0) \/
  (dx d = 0 /\ dz d = 2) \/ (dx d = -2 /\ dz d = 0).
Proof.
  unfold directions. rewrite !elem_of_cons, elem_of_nil.
  intros [->|[->|[->|[->|[]]]]]; simpl; lia.
Qed.

Lemma tree_like_confined p : tree_like W H p -> confined W H p.
Proof.
  intros T x z Hp. apply (tl_interior W H _ T) in Hp.
  unfold interior, inside in *. lia.
Qed.

Section Carve.
Variable p : cellset.
Hypothesis T : tree_like W H p.
Variables x z : Z.
Hypothesis Hroom : x mod 2 = 1 /\ z mod 2 = 1.
Hypothesis Hopen : p x z = true.
Variable d : dir.
Hypothesis Hd : d ∈ directions.
Hypothesis Hint : interior W H (x + dx d) (z + dz d).
Hypothesis Hwall : p (x + dx d) (z + dz d) = false.

(* the value of [p] at a cell, from the facts at hand *)
Local Ltac same_cell H :=
  match type of H with
  | p ?a ?b = ?v =>
      match goal with
      | |- p ?a' ?b' = v =>
          let E := fresh in
          assert (E : p a' b' = p a b) by (f_equal; lia); rewrite E; exact H
      end
  end.

Local Ltac clash E :=
  exfalso;
  match type of E with
  | p ?a ?b = true =>
      match type of Hwall with
      | p ?a' ?b' = false =>
          let F := fresh in
          assert (F : p a b = p a' b') by (f_equal; lia);
          rewrite F, Hwall in E; discriminate E
      end
  end.

Local Ltac closed_cell :=
  match goal with
  | |- p ?a ?b = false =>
      let E := fresh "E" in
      destruct (p a b) eqn:E; [|reflexivity];
      first
        [ clash E
        | exfalso; apply (tl_parity W H _ T) in E; lia
        | apply (tl_link_v W H _ T) in E; [|lia]; destruct E as [E1 E2];
          first [clash E1 | clash E2]
        | apply (tl_link_h W H _ T) in E; [|lia]; destruct E as [E1 E2];
          first [clash E1 | clash E2] ]
  end.

Local Ltac at_cell H :=
  match type of H with
  | ?q ?a ?b = true =>
      match goal with
      | |- q ?a' ?b' = true =>
          let E := fresh in
          assert (E : q a' b' = q a b) by (f_equal; lia); rewrite E; exact H
      end
  end.

Local Ltac pval := first [ same_cell Hopen | same_cell Hwall | closed_cell ].

Local Ltac eval_cells :=
  repeat match goal with
         | |- context [b2n (p ?a ?b)] =>
             first [ replace (p a b) with true by (symmetry; pval)
                   | replace (p a b) with false by (symmetry; pval) ];
             simpl b2n
         end.

Let mx := x + dx d / 2.
Let mz := z + dz d / 2.
Let nx := x + dx d.
Let nz := z + dz d.

Lemma carve_mid_closed : p mx mz = false.
Proof.
  subst mx mz. destruct (dir_cases d Hd) as [[Hx Hz]|[[Hx Hz]|[[Hx Hz]|[Hx Hz]]]];
    rewrite Hx, Hz in *; closed_cell.
Qed.

Lemma carve_mid_degree : degree p mx mz = 1%nat.
Proof.
  subst mx mz. unfold degree.
  destruct (dir_cases d Hd) as [[Hx Hz]|[[Hx Hz]|[[Hx Hz]|[Hx Hz]]]];
    rewrite Hx, Hz in *; eval_cells; reflexivity.
Qed.

Lemma carve_new_degree : degree (add mx mz p) nx nz = 1%nat.
Proof.
  subst mx mz nx nz. unfold degree, add.
  destruct (dir_cases d Hd) as [[Hx Hz]|[[Hx Hz]|[[Hx Hz]|[Hx Hz]]]];
    rewrite Hx, Hz in *;
    repeat match goal with
           | |- context [p ?a ?b] =>
               replace (p a b) with false by (symmetry; closed_cell)
           end;
    repeat match goal with
           | |- context [?a =? ?b] => destruct (Z.eqb_spec a b); try lia
           end;
    reflexivity.
Qed.

Lemma carve_mid_interior : interior W H mx mz.
Proof.
  pose proof (tl_interior W H _ T _ _ Hopen) as Hi. subst mx mz.
  unfold interior in *.
  destruct (dir_cases d Hd) as [[Hx Hz]|[[Hx Hz]|[[Hx Hz]|[Hx Hz]]]];
    rewrite Hx, Hz in *; lia.
Qed.

Lemma carve_nodes : nodes W H (add nx nz (add mx mz p)) = S (S (nodes W H p)).
Proof.
  pose proof carve_mid_interior as Hm. pose proof carve_mid_closed as Hc.
  rewrite nodes_add, nodes_add; [done|..].
  - unfold interior, inside in *. lia.
  - done.
  - unfold interior, inside in *. subst nx nz. lia.
  - subst nx nz. unfold add. rewrite Hwall. simpl.
    apply andb_false_iff. rewrite !Z.eqb_neq. subst mx mz.
    destruct (dir_cases d Hd) as [[Hx Hz]|[[Hx Hz]|[[Hx Hz]|[Hx Hz]]]];
      rewrite Hx, Hz in *; lia.
Qed.

Lemma carve_new_closed : add mx mz p nx nz = false.
Proof.
  subst nx nz. unfold add. rewrite Hwall. simpl.
  apply andb_false_iff. rewrite !Z.eqb_neq. subst mx mz.
  destruct (dir_cases d Hd) as [[Hx Hz]|[[Hx Hz]|[[Hx Hz]|[Hx Hz]]]];
    rewrite Hx, Hz in *; lia.
Qed.

Lemma carve_edges : edges W H (add nx nz (add mx mz p)) = S (S (edges W H p)).
Proof.
  pose proof carve_mid_interior as Hm. pose proof (tree_like_confined _ T) as Hconf.
  rewrite edges_add, edges_add, carve_mid_degree, carve_new_degree; [lia|..].
  - unfold interior, inside in *. lia.
  - apply carve_mid_closed.
  - done.
  - unfold interior, inside in *. subst nx nz. lia.
  - apply carve_new_closed.
  - intros a b Hab. apply add_true in Hab as [Hab|[-> ->]]; [by apply Hconf|].
    unfold interior, inside in *. lia.
Qed.

(** Opening the wall towards a closed room and the room itself keeps the
    invariant. *)
Lemma tree_like_carve : tree_like W H (add nx nz (add mx mz p)).
Proof.
  pose proof carve_mid_interior as Hm.
  assert (Hstep : (mx = x /\ (mz = z + 1 \/ mz = z - 1) /\ nx = x /\ nz = 2 * mz - z) \/
                  (mz = z /\ (mx = x + 1 \/ mx = x - 1) /\ nz = z /\ nx = 2 * mx - x)).
  { subst mx mz nx nz.
    destruct (dir_cases d Hd) as [[Hx Hz]|[[Hx Hz]|[[Hx Hz]|[Hx Hz]]]];
      rewrite Hx, Hz; lia. }
  assert (Hup : forall a b, p a b = true -> add nx nz (add mx mz p) a b = true)
    by (intros; by do 2 apply add_keeps).
  assert (Hp_mid : add nx nz (add mx mz p) mx mz = true)
    by (apply add_keeps, add_self).
  assert (Hp_new : add nx nz (add mx mz p) nx nz = true) by apply add_self.
  pose proof (Hup _ _ Hopen) as Hp_old.
  split.
  - intros a b Hab. apply add_true in Hab as [Hab|[-> ->]]; [|exact Hint].
    apply add_true in Hab as [Hab|[-> ->]]; [|exact Hm]. by apply (tl_interior W H _ T).
  - intros a b Hab. apply add_true in Hab as [Hab|[-> ->]]; [|lia].
    apply add_true in Hab as [Hab|[-> ->]]; [|lia]. by apply (tl_parity W H _ T).
  - intros a b Hab Hb. apply add_true in Hab as [Hab|[-> ->]]; [|lia].
    apply add_true in Hab as [Hab|[-> ->]].
    + destruct (tl_link_v W H _ T _ _ Hab Hb). split; by apply Hup.
    + destruct Hstep as [(Ex & Ez & Enx & Enz)|(Ez & Ex & Enz & Enx)]; [|lia].
      destruct Ez as [Ez|Ez]; split; first [at_cell Hp_old | at_cell Hp_new].
  - intros a b Hab Ha. apply add_true in Hab as [Hab|[-> ->]]; [|lia].
    apply add_true in Hab as [Hab|[-> ->]].
    + destruct (tl_link_h W H _ T _ _ Hab Ha). split; by apply Hup.
    + destruct Hstep as [(Ex & Ez & Enx & Enz)|(Ez & Ex & Enz & Enx)]; [lia|].
      destruct Ex as [Ex|Ex]; split; first [at_cell Hp_old | at_cell Hp_new].
  - rewrite carve_edges, carve_nodes. pose proof (tl_edges W H _ T). lia.
  - assert (Hr_mid : reach (add nx nz (add mx mz p)) (1, 1) (mx, mz)).
    { eapply reach_step; [eapply reach_mono; [exact Hup|exact (tl_conn W H _ T _ _ Hopen)]| |exact Hp_mid].
      unfold adjacent. simpl. lia. }
    intros a b Hab. apply add_true in Hab as [Hab|[-> ->]].
    + apply add_true in Hab as [Hab|[-> ->]]; [|exact Hr_mid].
      eapply reach_mono; [exact Hup|by apply (tl_conn W H _ T)].
    + eapply reach_step; [exact Hr_mid| |exact Hp_new].
      unfold adjacent. simpl. lia.
Qed.

End Carve.

Lemma tree_like_ext p q :
  (forall x z, p x z = q x z) -> tree_like W H p -> tree_like W H q.
Proof.
  intros Hpq [Ti Tp Tv Th Te Tc]. split; intros *; rewrite <- ?Hpq.
  - apply Ti.
  - apply Tp.
  - apply Tv.
  - apply Th.
  - by rewrite <- (edges_ext p q), <- (nodes_ext p q).
  - intros Hp. eapply reach_mono; [|by apply Tc]. intros a b. by rewrite Hpq.
Qed.

Lemma tree_like_start : interior W H 1 1 -> tree_like W H (add 1 1 nowhere).
Proof.
  intros Hint.
  assert (Hin : inside W H 1 1) by (unfold interior, inside in *; lia).
  split.
  - intros x z Hp. apply add_true in Hp as [?|[-> ->]]; done.
  - intros x z Hp. apply add_true in Hp as [?|[-> ->]]; [done|lia].
  - intros x z Hp. apply add_true in Hp as [?|[-> ->]]; [done|lia].
  - intros x z Hp. apply add_true in Hp as [?|[-> ->]]; [done|lia].
  - rewrite edges_add, nodes_add by done.
    unfold edges, nodes. rewrite !countb_never by done. done.
  - intros x z Hp. apply add_true in Hp as [?|[-> ->]]; [done|].
    apply reach_here. apply add_self.
Qed.

(** When every open room is closed and [(1, 1)] is open, every room is. *)
Lemma all_rooms p :
  p 1 1 = true ->
  (forall x z, x mod 2 = 1 -> z mod 2 = 1 -> p x z = true -> closed_room W H p x z) ->
  forall x z, x mod 2 = 1 -> z mod 2 = 1 -> interior W H x z -> p x z = true.
Proof.
  intros Hstart Hclosed.
  assert (Hcol : forall j : nat, interior W H 1 (1 + 2 * Z.of_nat j) ->
                                 p 1 (1 + 2 * Z.of_nat j) = true).
  { induction j as [|j IH]; intros Hint; [exact Hstart|].
    assert (Hprev : p 1 (1 + 2 * Z.of_nat j) = true)
      by (apply IH; unfold interior in *; lia).
    apply Hclosed in Hprev; [|lia..].
    specialize (Hprev {| dx := 0; dz := 2 |}). simpl in Hprev.
    replace (1 + 2 * Z.of_nat (S j)) with (1 + 2 * Z.of_nat j + 2) by lia.
    apply Hprev.
    - unfold directions. set_solver.
    - unfold interior in *. lia. }
  assert (Hall : forall i j : nat,
             interior W H (1 + 2 * Z.of_nat i) (1 + 2 * Z.of_nat j) ->
             p (1 + 2 * Z.of_nat i) (1 + 2 * Z.of_nat j) = true).
  { induction i as [|i IH]; intros j Hint; [by apply Hcol|].
    assert (Hprev : p (1 + 2 * Z.of_nat i) (1 + 2 * Z.of_nat j) = true)
      by (apply IH; unfold interior in *; lia).
    apply Hclosed in Hprev; [|lia..].
    specialize (Hprev {| dx := 2; dz := 0 |}). simpl in Hprev.
    rewrite Z.add_0_r in Hprev.
    replace (1 + 2 * Z.of_nat (S i)) with (1 + 2 * Z.of_nat i + 2) by lia.
    apply Hprev.
    - unfold directions. set_solver.
    - unfold interior in *. lia. }
  intros x z Hx Hz Hint.
  specialize (Hall (Z.to_nat ((x - 1) / 2)) (Z.to_nat ((z - 1) / 2))).
  unfold interior in *.
  replace (1 + 2 * Z.of_nat (Z.to_nat ((x - 1) / 2))) with x in Hall by lia.
  replace (1 + 2 * Z.of_nat (Z.to_nat ((z - 1) / 2))) with z in Hall by lia.
  apply Hall. lia.
Qed.

Lemma closed_room_mono p q x z :
  (forall a b, p a b = true -> q a b = true) -> closed_room W H p x z -> closed_room W H q x z.
Proof. intros Hpq Hc d Hd Hint. apply Hpq. by apply Hc. Qed.

End Graph.

(** ** Reading and writing the grid *)

Lemma frame_refl m : frame m m.
Proof. by repeat split. Qed.

Lemma frame_trans m1 m2 m3 : frame m1 m2 -> frame m2 m3 -> frame m1 m3.
Proof. unfold frame. intros (?&?&?&?&?) (?&?&?&?&?). repeat split; congruence. Qed.

Lemma grid_row_Some g z :
  0 <= z < Z.of_nat (length g) -> exists row, grid_row g z = Some row.
Proof.
  intros Hz. unfold grid_row. destruct (Z.ltb_spec z 0); [lia|].
  destruct (lookup_lt_is_Some_2 g (Z.to_nat z)) as [row Hrow]; [lia|]. eauto.
Qed.

Lemma grid_row_None g z :
  ~ 0 <= z < Z.of_nat (length g) -> grid_row g z = None.
Proof.
  intros Hz. unfold grid_row. destruct (Z.ltb_spec z 0); [done|].
  apply lookup_ge_None. lia.
Qed.

Lemma assign_spec z x v w :
  0 <= z < Z.of_nat (length (grid (this w))) ->
  exists w', assign z x v w = Normal w' /\ rnd w' = rnd w /\
    frame (this w) (this w') /\
    forall a b, cell (this w') a b
                = if (a =? x) && (b =? z) then Some v else cell (this w) a b.
Proof.
  intros Hz. unfold assign, grid_set.
  destruct (grid_row_Some _ _ Hz) as [row Hrow]. rewrite Hrow. simpl.
  eexists. split; [done|]. simpl. split; [done|]. split.
  { unfold frame. simpl. by rewrite length_insert. }
  intros a b. unfold cell. simpl. unfold grid_row in *.
  destruct (Z.ltb_spec z 0); [lia|].
  destruct (Z.ltb_spec b 0).
  - destruct (Z.eqb_spec b z); [lia|]. by rewrite andb_false_r.
  - destruct (Z.eqb_spec b z) as [->|Hne].
    + rewrite list_lookup_insert_eq by lia. rewrite Hrow, andb_true_r.
      unfold arr_get, arr_set. simpl.
      destruct (Z.eqb_spec a x) as [->|Hne].
      * by rewrite lookup_insert_eq.
      * by rewrite lookup_insert_ne.
    + rewrite list_lookup_insert_ne by lia. by rewrite andb_false_r.
Qed.

Lemma assign_throws z x v w :
  ~ 0 <= z < Z.of_nat (length (grid (this w))) -> assign z x v w = Throw TypeError.
Proof.
  intros Hz. unfold assign, grid_set. by rewrite grid_row_None.
Qed.

Lemma wall_row_spec n :
  alength (Nat.iter n (arr_push WALL) arr_empty) = Z.of_nat n /\
  forall k, arr_get k (Nat.iter n (arr_push WALL) arr_empty)
            = if (0 <=? k) && (k <? Z.of_nat n) then Some WALL else None.
Proof.
  induction n as [|n [IHlen IHget]].
  - split; [done|]. intros k. unfold arr_get. simpl. rewrite lookup_empty.
    destruct (Z.leb_spec 0 k), (Z.ltb_spec k (Z.of_nat 0)); simpl; (done || lia).
  - change (Nat.iter (S n) (arr_push WALL) arr_empty)
      with (arr_push WALL (Nat.iter n (arr_push WALL) arr_empty)).
    split; [unfold arr_push at 1; cbn [alength]; rewrite IHlen; lia|].
    intros k. unfold arr_get in *. unfold arr_push at 1. cbn [props]. rewrite IHlen.
    destruct (Z.eq_dec k (Z.of_nat n)) as [->|Hne].
    + rewrite lookup_insert_eq.
      destruct (Z.leb_spec 0 (Z.of_nat n)), (Z.ltb_spec (Z.of_nat n) (Z.of_nat (S n)));
        simpl; (done || lia).
    + rewrite lookup_insert_ne by done. rewrite IHget.
      destruct (Z.leb_spec 0 k), (Z.ltb_spec k (Z.of_nat n)),
        (Z.ltb_spec k (Z.of_nat (S n))); simpl; (done || lia).
Qed.

Lemma wall_grid_replicate m :
  wall_grid m = replicate (Z.to_nat (height m)) (wall_row m).
Proof.
  unfold wall_grid. induction (Z.to_nat (height m)) as [|n IH]; [done|].
  rewrite replicate_S_end, <- IH. done.
Qed.

Lemma fresh_cell m x z :
  cell (fresh m) x z
  = if out_of_bounds m x z then None else Some WALL.
Proof.
  unfold cell, fresh, out_of_bounds. simpl. rewrite wall_grid_replicate.
  unfold grid_row.
  destruct (Z.ltb_spec z 0); [by rewrite orb_true_r, ?orb_true_l|].
  rewrite orb_false_r.
  destruct (Z.geb_spec z (height m)).
  - rewrite orb_true_r. rewrite (proj1 (lookup_replicate_None _ _ _)); [done|lia].
  - rewrite orb_false_r. rewrite lookup_replicate_2 by lia.
    unfold wall_row. rewrite (proj2 (wall_row_spec _)).
    destruct (Z.ltb_spec x 0), (Z.geb_spec x (width m)), (Z.leb_spec 0 x),
      (Z.ltb_spec x (Z.of_nat (Z.to_nat (width m)))); simpl; (done || lia).
Qed.

Lemma fresh_length m : length (grid (fresh m)) = Z.to_nat (height m).
Proof. simpl. by rewrite wall_grid_replicate, length_replicate. Qed.

(** ** [shuffleArray] returns the same directions *)

Lemma swap_elem (i j : nat) (l : list dir) (d : dir) : d ∈ swap i j l <-> d ∈ l.
Proof.
  unfold swap. destruct (l !! i) as [vi|] eqn:Hi; [|done].
  destruct (l !! j) as [vj|] eqn:Hj; [|done].
  pose proof (lookup_lt_Some _ _ _ Hi) as Hli.
  pose proof (lookup_lt_Some _ _ _ Hj) as Hlj.
  rewrite !list_elem_of_lookup. split.
  - intros [k Hk]. apply list_lookup_insert_Some in Hk as [(_ & <- & _)|[_ Hk]]; [eauto|].
    apply list_lookup_insert_Some in Hk as [(_ & <- & _)|[_ Hk]]; eauto.
  - intros [k Hk]. destruct (decide (k = i)) as [->|Hki].
    + exists j. rewrite list_lookup_insert_eq by (rewrite length_insert; lia). congruence.
    + destruct (decide (k = j)) as [->|Hkj].
      * exists i. rewrite list_lookup_insert_ne by done.
        rewrite list_lookup_insert_eq by lia. congruence.
      * exists k. by rewrite !list_lookup_insert_ne by done.
Qed.

Lemma shuffle_loop_elem (i : nat) (l : list dir) (r : Random) (d : dir) :
  d ∈ (shuffle_loop i l r).1 <-> d ∈ l.
Proof.
  revert l r. induction i as [|i IH]; intros l r; simpl; [done|].
  rewrite IH. apply swap_elem.
Qed.

Lemma shuffleArray_elem (l : list dir) (r : Random) (d : dir) :
  d ∈ (shuffleArray l r).1 <-> d ∈ l.
Proof. apply shuffle_loop_elem. Qed.

(** ** [carvePassages] keeps the invariant and closes every room it opens *)

Section CarveSpec.
Variables W H : Z.

Lemma nonwall_inside m x z : grid_ok W H m -> nonwall m x z = true -> inside W H x z.
Proof.
  intros [Hw Hh _ _]. unfold nonwall, out_of_bounds, inside. rewrite Hw, Hh.
  intros [Hb _]%andb_true_iff. apply negb_true_iff in Hb.
  destruct (Z.ltb_spec x 0), (Z.geb_spec x W), (Z.ltb_spec z 0), (Z.geb_spec z H);
    simpl in Hb; (done || lia).
Qed.

Lemma inside_in_bounds m x z :
  grid_ok W H m -> inside W H x z -> out_of_bounds m x z = false.
Proof.
  intros [Hw Hh _ _] Hin. unfold out_of_bounds, inside in *. rewrite Hw, Hh.
  destruct (Z.ltb_spec x 0), (Z.geb_spec x W), (Z.ltb_spec z 0), (Z.geb_spec z H);
    simpl; (done || lia).
Qed.

Lemma assign_passage z x w :
  grid_ok W H (this w) -> inside W H x z ->
  exists w', assign z x PASSAGE w = Normal w' /\ rnd w' = rnd w /\
    frame (this w) (this w') /\ grid_ok W H (this w') /\
    forall a b, nonwall (this w') a b = add x z (nonwall (this w)) a b.
Proof.
  intros Hok Hin.
  destruct (assign_spec z x PASSAGE w) as (w' & Hrun & Hrnd & Hfr & Hcell).
  { rewrite (ok_rows W H _ Hok). unfold inside in Hin. lia. }
  exists w'. split; [done|]. split; [done|]. split; [done|].
  destruct Hfr as (Fw & Fh & Fs & Fe & Fl).
  assert (Hok' : grid_ok W H (this w')).
  { split.
    - by rewrite Fw, (ok_width W H _ Hok).
    - by rewrite Fh, (ok_height W H _ Hok).
    - by rewrite Fl, (ok_rows W H _ Hok).
    - intros a b Hab. rewrite Hcell. destruct (_ && _); [by left|].
      by apply (ok_vals W H _ Hok). }
  split; [done|].
  intros a b. unfold nonwall at 1, add. rewrite Hcell.
  destruct (Z.eqb_spec a x) as [->|], (Z.eqb_spec b z) as [->|]; simpl;
    rewrite ?orb_false_r.
  - rewrite (inside_in_bounds _ _ _ Hok' Hin). by rewrite orb_true_r.
  - unfold nonwall, out_of_bounds. by rewrite Fw, Fh.
  - unfold nonwall, out_of_bounds. by rewrite Fw, Fh.
  - unfold nonwall, out_of_bounds. by rewrite Fw, Fh.
Qed.

Lemma admissible_spec m a b :
  grid_ok W H m ->
  exists ok, admissible m a b = Normal ok /\
             (ok = true <-> interior W H a b /\ nonwall m a b = false).
Proof.
  intros Hok. unfold admissible. rewrite (ok_width W H _ Hok), (ok_height W H _ Hok).
  destruct (Z.ltb_spec 0 a), (Z.ltb_spec a (W - 1)), (Z.ltb_spec 0 b),
    (Z.ltb_spec b (H - 1)); simpl;
    try (exists false; split; [done|]; unfold interior; split; [done|lia]).
  assert (Hin : inside W H a b) by (unfold inside; lia).
  unfold grid_get.
  destruct (grid_row_Some (grid m) b) as [row Hrow].
  { rewrite (ok_rows W H _ Hok). lia. }
  rewrite Hrow. simpl. eexists. split; [done|].
  unfold nonwall. rewrite (inside_in_bounds _ _ _ Hok Hin). simpl.
  pose proof (ok_vals W H _ Hok _ _ Hin) as Hv. unfold cell in *. rewrite Hrow in *.
  unfold interior. destruct Hv as [-> | ->]; simpl; split; (done || lia || (intros []; done) || (split; [lia|done])).
Qed.

Lemma carved_refl m : grid_ok W H m -> tree_like W H (nonwall m) -> carved W H m m.
Proof. intros Hok T. split; [apply frame_refl|done|done|by intros ?|]. by left. Qed.

Lemma carved_trans m1 m2 m3 : carved W H m1 m2 -> carved W H m2 m3 -> carved W H m1 m3.
Proof.
  intros [F1 O1 T1 G1 C1] [F2 O2 T2 G2 C2]. split.
  - by eapply frame_trans.
  - done.
  - done.
  - intros a b Hab. by apply G2, G1.
  - intros a b Ha Hb Hab. destruct (C2 a b Ha Hb Hab) as [Hab2|Hcl]; [|by right].
    destruct (C1 a b Ha Hb Hab2) as [Hab1|Hcl]; [by left|right].
    eapply closed_room_mono; [exact G2|exact Hcl].
Qed.

Lemma interior_inside x z : interior W H x z -> inside W H x z.
Proof. unfold interior, inside. lia. Qed.

Lemma mid_not_room x z d a b :
  x mod 2 = 1 -> z mod 2 = 1 -> d ∈ directions -> a mod 2 = 1 -> b mod 2 = 1 ->
  ~ (a = x + dx d / 2 /\ b = z + dz d / 2).
Proof.
  intros Hx Hz Hd Ha Hb [-> ->].
  destruct (dir_cases d Hd) as [[Ex Ez]|[[Ex Ez]|[[Ex Ez]|[Ex Ez]]]];
    rewrite Ex, Ez in *; lia.
Qed.

Lemma carve_loop fuel x z :
  carve_ok W H fuel -> x mod 2 = 1 -> z mod 2 = 1 ->
  forall ds w,
    (forall d, d ∈ ds -> d ∈ directions) ->
    grid_ok W H (this w) -> tree_like W H (nonwall (this w)) ->
    nonwall (this w) x z = true ->
    ((cap W H) <= S fuel + nodes W H (nonwall (this w)))%nat ->
    exists w', forOf (carve_step (carvePassages fuel) x z) ds w = Normal w' /\
      carved W H (this w) (this w') /\
      forall d, d ∈ ds -> interior W H (x + dx d) (z + dz d) ->
                nonwall (this w') (x + dx d) (z + dz d) = true.
Proof.
  intros IH Hx Hz. induction ds as [|d ds IHds]; intros w Hds Hok T Hopen Hfuel.
  { exists w. split; [done|]. split; [by apply carved_refl|].
    intros d Hd. by apply elem_of_nil in Hd. }
  assert (Hd : d ∈ directions) by (apply Hds; left).
  assert (Hds' : forall d', d' ∈ ds -> d' ∈ directions) by (intros; apply Hds; by right).
  rewrite forOf_cons. unfold carve_step at 1. cbv zeta.
  destruct (admissible_spec (this w) (x + dx d) (z + dz d) Hok) as (ok & -> & Hadm).
  cbn [bind]. destruct ok.
  - (* the neighbour room is closed: open the wall and recurse *)
    destruct (proj1 Hadm eq_refl) as [Hint Hwall].
    pose proof (carve_mid_interior W H _ T x z (conj Hx Hz) Hopen d Hd Hint Hwall) as Hmid.
    destruct (assign_passage (z + dz d / 2) (x + dx d / 2) w Hok
                (interior_inside _ _ Hmid)) as (wm & -> & Hrnd & Hfr & Hokm & Hnw).
    cbn [bind].
    assert (Hcall : callable W H fuel (x + dx d) (z + dz d) (this wm)).
    { split.
      - done.
      - destruct (dir_cases d Hd) as [[Ex Ez]|[[Ex Ez]|[[Ex Ez]|[Ex Ez]]]];
          rewrite Ex, Ez; lia.
      - done.
      - rewrite Hnw. by apply (carve_new_closed W H _ x z d Hd Hint Hwall).
      - eapply tree_like_ext;
          [|exact (tree_like_carve W H _ T x z (conj Hx Hz) Hopen d Hd Hint Hwall)].
        intros a b. unfold add at 1 3. by rewrite Hnw.
      - rewrite (nodes_ext W H _ _ Hnw), nodes_add.
        + lia.
        + by apply interior_inside.
        + by apply (carve_mid_closed W H _ T x z (conj Hx Hz) d Hd Hint Hwall). }
    destruct (IH _ _ _ Hcall) as (w2 & -> & Hcv2 & Hnew).
    cbn [bind].
    assert (Hgm : grows (this w) (this wm))
      by (intros a b Hab; rewrite Hnw; by apply add_keeps).
    destruct (IHds w2 Hds') as (w' & -> & Hcv' & Hrest).
    { apply (cv_ok W H _ _ Hcv2). }
    { apply (cv_tree W H _ _ Hcv2). }
    { by apply (cv_grows W H _ _ Hcv2), Hgm. }
    { pose proof (nodes_mono W H _ _ (cv_grows W H _ _ Hcv2)).
      pose proof (nodes_mono W H _ _ Hgm). lia. }
    exists w'. split; [done|]. split.
    + destruct Hcv2 as [F2 O2 T2 G2 C2]. destruct Hcv' as [F' O' T' G' C'].
      split.
      * eapply frame_trans; [exact Hfr|]. by eapply frame_trans.
      * done.
      * done.
      * intros a b Hab. by apply G', G2, Hgm.
      * intros a b Ha Hb Hab.
        destruct (C' a b Ha Hb Hab) as [Hab2|Hcl]; [|by right].
        destruct (C2 a b Ha Hb Hab2) as [Habm|Hcl].
        -- left. rewrite Hnw in Habm. apply add_true in Habm as [?|Heq]; [done|].
           by apply (mid_not_room x z d a b) in Heq.
        -- right. eapply closed_room_mono; [exact G'|exact Hcl].
    + intros d' [->|Hd']%elem_of_cons Hint'.
      * by apply (cv_grows W H _ _ Hcv').
      * by apply Hrest.
  - (* the neighbour is off the interior or already open *)
    cbn [bind].
    destruct (IHds w Hds' Hok T Hopen Hfuel) as (w' & -> & Hcv' & Hrest).
    exists w'. split; [done|]. split; [done|].
    intros d' [->|Hd']%elem_of_cons Hint'.
    + apply (cv_grows W H _ _ Hcv').
      destruct (nonwall (this w) (x + dx d) (z + dz d)) eqn:E; [done|].
      assert (false = true) by (apply Hadm; by split). done.
    + by apply Hrest.
Qed.

Lemma carvePassages_spec fuel : carve_ok W H fuel.
Proof.
  induction fuel as [|fuel IH]; intros x z w [Hok [Hx Hz] Hint Hwall T Hfuel].
  { pose proof (nodes_lt W H _ x z (interior_inside _ _ Hint) Hwall). unfold cap in *. lia. }
  rewrite carvePassages_S.
  destruct (assign_passage z x w Hok (interior_inside _ _ Hint))
    as (w1 & -> & Hrnd & Hfr & Hok1 & Hnw).
  cbn [bind]. destruct (shuffleArray directions (rnd w1)) as [dirs r] eqn:Hsh.
  assert (Hdirs : forall d, d ∈ dirs <-> d ∈ directions).
  { intros d. rewrite <- (shuffleArray_elem directions (rnd w1)). by rewrite Hsh. }
  assert (Hgrow : grows (this w) (this w1))
    by (intros a b Hab; rewrite Hnw; by apply add_keeps).
  destruct (carve_loop fuel x z IH Hx Hz dirs {| this := this w1; rnd := r |})
    as (w' & -> & Hcv & Hall).
  { intros d. apply Hdirs. }
  { done. }
  { simpl. eapply tree_like_ext; [|exact T]. intros a b. by rewrite Hnw. }
  { simpl. rewrite Hnw. apply add_self. }
  { simpl. pose proof (nodes_mono W H _ _ Hgrow). lia. }
  simpl in *. exists w'. split; [done|].
  destruct Hcv as [F' O' T' G' C'].
  assert (Hself : nonwall (this w') x z = true)
    by (apply G'; rewrite Hnw; apply add_self).
  split; [|done]. split.
  - by eapply frame_trans.
  - done.
  - done.
  - intros a b Hab. by apply G', Hgrow.
  - intros a b Ha Hb Hab. destruct (C' a b Ha Hb Hab) as [Hab1|Hcl]; [|by right].
    rewrite Hnw in Hab1. apply add_true in Hab1 as [?|[-> ->]]; [by left|right].
    intros d Hd Hint'. apply Hall; [by apply Hdirs|done].
Qed.

End CarveSpec.

(** ** [generate] on an instance with odd dimensions of at least 3 *)

Lemma constructor_instance w h : instance (constructor w h).
Proof.
  split; simpl; try done.
  - destruct (Z.eqb_spec (Z.rem w 2) 0); lia.
  - destruct (Z.eqb_spec (Z.rem h 2) 0); lia.
Qed.

Section Generate.
Variable m : MazeGenerator.
Variable r : Random.
Variable fuel : nat.
Hypothesis Hinst : instance m.
Hypothesis Hw : 3 <= width m.
Hypothesis Hh : 3 <= height m.
Hypothesis Hfuel : (Z.to_nat (height m) * Z.to_nat (width m) <= fuel)%nat.

Let W := width m.
Let H := height m.

Lemma fresh_ok : grid_ok W H (fresh m).
Proof.
  split; [done|done|apply fresh_length|].
  intros x z Hin. right. rewrite fresh_cell.
  unfold out_of_bounds, inside in *. subst W H.
  destruct (Z.ltb_spec x 0), (Z.geb_spec x (width m)), (Z.ltb_spec z 0),
    (Z.geb_spec z (height m)); simpl; (done || lia).
Qed.

Lemma fresh_nonwall x z : nonwall (fresh m) x z = false.
Proof.
  unfold nonwall. rewrite fresh_cell.
  change (out_of_bounds (fresh m) x z) with (out_of_bounds m x z).
  by destruct (out_of_bounds m x z).
Qed.

Lemma fresh_callable : callable W H fuel 1 1 (fresh m).
Proof.
  assert (Hint : interior W H 1 1) by (unfold interior; subst W H; lia).
  split.
  - apply fresh_ok.
  - lia.
  - done.
  - apply fresh_nonwall.
  - eapply tree_like_ext; [|by apply tree_like_start].
    intros x z. unfold add, nowhere. by rewrite fresh_nonwall.
  - unfold cap. subst W H. lia.
Qed.

(** The run of [generate]: carving ends in a world [wc] that satisfies the
    invariant with every room open, and the final grid is the carved one
    with the exit marked. *)
Lemma generate_spec :
  exists wc w',
    carvePassages fuel 1 1 {| this := fresh m; rnd := r |} = Normal wc /\
    generate fuel {| this := m; rnd := r |} = Normal w' /\
    frame (this wc) (this w') /\ frame (fresh m) (this wc) /\
    grid_ok W H (this wc) /\ tree_like W H (nonwall (this wc)) /\
    (forall x z, x mod 2 = 1 -> z mod 2 = 1 -> interior W H x z ->
                 cell (this wc) x z = Some PASSAGE) /\
    (forall x z, cell (this w') x z
                 = if (x =? W - 2) && (z =? H - 2) then Some EXIT
                   else cell (this wc) x z).
Proof.
  destruct (carvePassages_spec W H fuel 1 1 {| this := fresh m; rnd := r |}
              fresh_callable) as (wc & Hrun & [Hfr Hok T Hgrow Hclosed] & Hstart).
  simpl in Hfr, Hgrow, Hclosed.
  assert (Hrooms : forall x z, x mod 2 = 1 -> z mod 2 = 1 -> interior W H x z ->
                               cell (this wc) x z = Some PASSAGE).
  { intros x z Hx Hz Hint.
    assert (Hnw : nonwall (this wc) x z = true).
    { apply (all_rooms W H); try done.
      intros a b Ha Hb Hab. destruct (Hclosed a b Ha Hb Hab) as [Hf|]; [|done].
      by rewrite fresh_nonwall in Hf. }
    destruct (ok_vals _ _ _ Hok x z (interior_inside _ _ _ _ Hint)) as [E|E]; [done|].
    unfold nonwall in Hnw. rewrite E in Hnw. simpl in Hnw.
    by rewrite andb_false_r in Hnw. }
  destruct Hfr as (Fw & Fh & Fs & Fe & Fl). simpl in Fw, Fh, Fs, Fe, Fl.
  destruct Hinst as [_ _ Hs He].
  assert (Hrows : forall w, frame (this wc) (this w) ->
            0 <= 1 < Z.of_nat (length (grid (this w))) /\
            0 <= H - 2 < Z.of_nat (length (grid (this w))) /\
            start (this w) = {| px := 1; pz := 1 |} /\
            end_ (this w) = {| px := W - 2; pz := H - 2 |}).
  { intros w (Gw & Gh & Gs & Ge & Gl).
    rewrite Gl, (ok_rows _ _ _ Hok), Gs, Ge, Fs, Fe. subst W H. split_and!; (done || lia). }
  exists wc. unfold generate.
  change {| this := set_grid (wall_grid (this {| this := m; rnd := r |}))
                      (this {| this := m; rnd := r |});
            rnd := rnd {| this := m; rnd := r |} |}
    with {| this := fresh m; rnd := r |}.
  rewrite Hrun. cbn [bind].
  destruct (Hrows wc (frame_refl _)) as (R1 & _ & S1 & _). rewrite S1. cbn [px pz].
  destruct (assign_spec 1 1 PASSAGE wc R1) as (w2 & -> & _ & F2 & C2). cbn [bind].
  destruct (Hrows w2 F2) as (_ & R2 & _ & E2). rewrite E2. cbn [px pz].
  destruct (assign_spec (H - 2) (W - 2) PASSAGE w2 R2) as (w3 & -> & _ & F3 & C3).
  cbn [bind]. pose proof (frame_trans _ _ _ F2 F3) as F23.
  destruct (Hrows w3 F23) as (_ & R3 & _ & E3). rewrite E3. cbn [px pz].
  destruct (assign_spec (H - 2) (W - 2) EXIT w3 R3) as (w4 & -> & _ & F4 & C4).
  exists w4. split; [done|]. split; [done|].
  split; [by eapply frame_trans|]. split; [by repeat split|].
  split; [done|]. split; [done|]. split; [done|].
  intros x z. rewrite C4. destruct ((x =? W - 2) && (z =? H - 2)) eqn:E; [done|].
  rewrite C3, E, C2.
  destruct (Z.eqb_spec x 1) as [->|]; [|done].
  destruct (Z.eqb_spec z 1) as [->|]; [|done].
  simpl. symmetry. apply Hrooms; [lia|lia|]. unfold interior. subst W H. lia.
Qed.

End Generate.

(** ** The queries on a grid with [height] rows *)

Lemma grid_get_cell m x z :
  rows_ok m -> out_of_bounds m x z = false ->
  grid_get (grid m) z x = Normal (cell m x z).
Proof.
  intros Hrows Hin. unfold grid_get, cell.
  destruct (grid_row_Some (grid m) z) as [row ->]; [|done].
  rewrite Hrows. unfold out_of_bounds in Hin.
  destruct (Z.ltb_spec x 0), (Z.geb_spec x (width m)), (Z.ltb_spec z 0),
    (Z.geb_spec z (height m)); simpl in Hin; (done || lia).
Qed.

Lemma isWall_rows_ok m x z :
  rows_ok m ->
  isWall m x z = Normal (out_of_bounds m x z || strict_eq (cell m x z) WALL).
Proof.
  intros Hrows. unfold isWall. destruct (out_of_bounds m x z) eqn:E; [done|].
  by rewrite grid_get_cell.
Qed.

Lemma isExit_rows_ok m x z :
  rows_ok m ->
  isExit m x z = Normal (negb (out_of_bounds m x z) && strict_eq (cell m x z) EXIT).
Proof.
  intros Hrows. unfold isExit. destruct (out_of_bounds m x z) eqn:E; [done|].
  by rewrite grid_get_cell.
Qed.

(** On a grid without rows every query inside the bounds throws. *)
Lemma grid_get_no_rows x z : grid_get [] z x = Throw TypeError.
Proof. unfold grid_get, grid_row. by destruct (z <? 0). Qed.

(** *** Every run that returns keeps the dimensions and the number of rows *)

Lemma assign_frame z x v w w' :
  assign z x v w = Normal w' -> frame (this w) (this w').
Proof.
  unfold assign, grid_set. destruct (grid_row _ z); [|done]. simpl.
  intros [= <-]. unfold frame. simpl. by rewrite length_insert.
Qed.

Lemma forOf_frame (body : dir -> World -> completion World) :
  (forall d w w', body d w = Normal w' -> frame (this w) (this w')) ->
  forall ds w w', forOf body ds w = Normal w' -> frame (this w) (this w').
Proof.
  intros Hbody. induction ds as [|d ds IH]; intros w w'; simpl.
  - intros [= <-]. apply frame_refl.
  - destruct (body d w) as [w1| |] eqn:E; [|done..]. simpl. intros Hrest.
    eapply frame_trans; [by eapply Hbody|by apply IH].
Qed.

Lemma carvePassages_frame fuel :
  forall x z w w', carvePassages fuel x z w = Normal w' -> frame (this w) (this w').
Proof.
  induction fuel as [|fuel IH]; intros x z w w'; [done|].
  rewrite carvePassages_S.
  destruct (assign z x PASSAGE w) as [w1| |] eqn:E1; [|done..]. cbn [bind].
  destruct (shuffleArray directions (rnd w1)) as [dirs r]. intros Hloop.
  eapply frame_trans; [by eapply assign_frame|].
  apply forOf_frame in Hloop; [done|].
  intros d u u'. unfold carve_step.
  destruct (admissible (this u) _ _) as [[|]| |]; cbn [bind]; try done.
  - destruct (assign _ _ PASSAGE u) as [u1| |] eqn:E2; [|done..]. cbn [bind].
    intros Hrec. eapply frame_trans; [by eapply assign_frame|by eapply IH].
  - intros [= <-]. apply frame_refl.
Qed.

(** *** More fuel does not change the result *)

Lemma forOf_impl {A S : Type} (f g : A -> S -> completion S) :
  (forall a s s', f a s = Normal s' -> g a s = Normal s') ->
  forall l s s', forOf f l s = Normal s' -> forOf g l s = Normal s'.
Proof.
  intros Hfg. induction l as [|a l IH]; intros s s'; [done|].
  rewrite !forOf_cons. destruct (f a s) as [s1| |] eqn:E; [|done..].
  rewrite (Hfg _ _ _ E). cbn [bind]. apply IH.
Qed.

Lemma carvePassages_more_fuel fuel :
  forall fuel' x z w w', (fuel <= fuel')%nat ->
    carvePassages fuel x z w = Normal w' -> carvePassages fuel' x z w = Normal w'.
Proof.
  induction fuel as [|fuel IH]; intros fuel' x z w w' Hle; [done|].
  destruct fuel' as [|fuel']; [lia|]. rewrite !carvePassages_S.
  destruct (assign z x PASSAGE w) as [w1| |]; [|done..]. cbn [bind].
  destruct (shuffleArray directions (rnd w1)) as [dirs r].
  apply forOf_impl. intros d u u'. unfold carve_step.
  destruct (admissible (this u) _ _) as [[|]| |]; cbn [bind]; try done.
  destruct (assign _ _ PASSAGE u) as [u1| |]; [|done..]. cbn [bind].
  apply IH. lia.
Qed.

Lemma generate_more_fuel fuel fuel' w w' :
  (fuel <= fuel')%nat -> generate fuel w = Normal w' -> generate fuel' w = Normal w'.
Proof.
  intros Hle. unfold generate.
  destruct (carvePassages fuel 1 1 _) as [w1| |] eqn:E; [|done..].
  by rewrite (carvePassages_more_fuel _ _ _ _ _ _ Hle E).
Qed.

Lemma generate_frame fuel w w' :
  generate fuel w = Normal w' -> frame (fresh (this w)) (this w').
Proof.
  unfold generate.
  destruct (carvePassages fuel 1 1 _) as [w1| |] eqn:E1; [|done..]. cbn [bind].
  destruct (assign _ _ PASSAGE w1) as [w2| |] eqn:E2; [|done..]. cbn [bind].
  destruct (assign _ _ PASSAGE w2) as [w3| |] eqn:E3; [|done..]. cbn [bind].
  intros E4.
  apply carvePassages_frame in E1. apply assign_frame in E2, E3, E4.
  eapply frame_trans; [exact E1|]. eapply frame_trans; [exact E2|].
  by eapply frame_trans.
Qed.

Lemma generate_rows_ok fuel w w' : generate fuel w = Normal w' -> rows_ok (this w').
Proof.
  intros (Fw & Fh & _ & _ & Fl)%generate_frame. unfold rows_ok.
  rewrite Fl, Fh. apply (fresh_length (this w)).
Qed.

(** ** The generated maze *)

Lemma generate_generated m r fuel :
  instance m -> 3 <= width m -> 3 <= height m ->
  (Z.to_nat (height m) * Z.to_nat (width m) <= fuel)%nat ->
  exists w', generate fuel {| this := m; rnd := r |} = Normal w' /\
             generated m (this w').
Proof.
  intros Hinst Hw Hh Hfuel.
  destruct (generate_spec m r fuel Hinst Hw Hh Hfuel)
    as (wc & w' & _ & Hrun & Fc & Ff & Hok & T & Hrooms & Hcell).
  exists w'. split; [done|].
  destruct Fc as (Fw & Fh & Fs & Fe & Fl). destruct Ff as (Gw & Gh & Gs & Ge & Gl).
  simpl in Gw, Gh, Gs, Ge.
  assert (Eodd : (width m - 2) mod 2 = 1 /\ (height m - 2) mod 2 = 1)
    by (destruct Hinst; lia).
  assert (Eint : interior (width m) (height m) (width m - 2) (height m - 2))
    by (unfold interior; lia).
  assert (Hnw : forall x z, nonwall (this wc) x z = nonwall (this w') x z).
  { intros x z. unfold nonwall, out_of_bounds. rewrite Fw, Fh, Hcell.
    destruct (Z.eqb_spec x (width m - 2)) as [->|]; [|done].
    destruct (Z.eqb_spec z (height m - 2)) as [->|]; [|done].
    simpl. by rewrite (Hrooms _ _ (proj1 Eodd) (proj2 Eodd) Eint). }
  split.
  - by rewrite Fw, Gw.
  - by rewrite Fh, Gh.
  - rewrite Fs, Gs. by destruct Hinst.
  - rewrite Fe, Ge. by destruct Hinst.
  - unfold rows_ok. rewrite Fl, Fh, Gh. apply (ok_rows _ _ _ Hok).
  - intros x z Hin. rewrite Hcell. destruct (_ && _); [by right; right|].
    destruct (ok_vals _ _ _ Hok x z Hin); [by left|by right; left].
  - intros x z Hin. rewrite Hcell.
    destruct (Z.eqb_spec x (width m - 2)), (Z.eqb_spec z (height m - 2)); simpl;
      try (split; [done|by intros]);
      (split; [|lia]); destruct (ok_vals _ _ _ Hok x z Hin) as [-> | ->]; done.
  - by apply (tree_like_ext _ _ _ _ Hnw).
  - intros x z Hx Hz Hint. rewrite <- Hnw. unfold nonwall.
    rewrite (inside_in_bounds _ _ _ _ _ Hok (interior_inside _ _ _ _ Hint)).
    by rewrite (Hrooms _ _ Hx Hz Hint).
Qed.

Lemma generated_isWall m g x z :
  generated m g -> isWall g x z = Normal (negb (nonwall g x z)).
Proof.
  intros G. rewrite (isWall_rows_ok _ _ _ (gen_rows _ _ G)). f_equal.
  unfold nonwall. destruct (out_of_bounds g x z) eqn:E; [done|]. simpl.
  assert (Hin : inside (width m) (height m) x z).
  { unfold out_of_bounds, inside in *.
    rewrite (gen_width _ _ G), (gen_height _ _ G) in E.
    destruct (Z.ltb_spec x 0), (Z.geb_spec x (width m)), (Z.ltb_spec z 0),
      (Z.geb_spec z (height m)); simpl in E; (done || lia). }
  by destruct (gen_kinds _ _ G x z Hin) as [-> |[-> | ->]].
Qed.

Lemma generated_closed_cell m g x z :
  generated m g -> inside (width m) (height m) x z -> nonwall g x z = false ->
  cell g x z = Some WALL.
Proof.
  intros G Hin Hnw. unfold nonwall in Hnw.
  assert (Hb : out_of_bounds g x z = false).
  { unfold out_of_bounds, inside in *. rewrite (gen_width _ _ G), (gen_height _ _ G).
    destruct (Z.ltb_spec x 0), (Z.geb_spec x (width m)), (Z.ltb_spec z 0),
      (Z.geb_spec z (height m)); simpl; (done || lia). }
  rewrite Hb in Hnw. simpl in Hnw.
  by destruct (gen_kinds _ _ G x z Hin) as [E|[E|E]]; rewrite E in Hnw |- *.
Qed.

(** [generate] leaves the dimensions and the end points of the object as the
    constructor set them. *)
Lemma generated_fields m g :
  instance m -> generated m g ->
  getWidth g = getWidth m /\ getHeight g = getHeight m /\
  getStart g = getStart m /\ getEnd g = getEnd m.
Proof.
  intros [_ _ Is Ie] G. unfold getWidth, getHeight, getStart, getEnd.
  rewrite (gen_width _ _ G), (gen_height _ _ G), (gen_start _ _ G), (gen_end _ _ G), Is, Ie.
  done.
Qed.

(** * The claims *)

(** ** C1: the generated maze is perfect *)

Lemma generated_perfect m g :
  3 <= width m -> 3 <= height m -> instance m -> generated m g -> perfect_maze g.
Proof.
  intros Hw Hh [Iw Ih _ _] G. unfold perfect_maze, getStart, getEnd, getWidth, getHeight.
  rewrite (gen_start _ _ G), (gen_end _ _ G), (gen_width _ _ G), (gen_height _ _ G).
  simpl. split_and!.
  - apply (gen_rooms _ _ G); [lia..|]. unfold interior. lia.
  - apply (gen_rooms _ _ G); [lia..|]. unfold interior. lia.
  - apply (tl_conn _ _ _ (gen_tree _ _ G)).
  - pose proof (tl_edges _ _ _ (gen_tree _ _ G)). lia.
Qed.

(** C1. For every constructor input with normalized width and height at
    least 5, [generate()] completes and leaves the object with the width,
    height, start and end that the constructor set; in the grid it returns
    the non-wall cells (Passage and Exit) form one connected component that
    contains the start cell (1,1) and the exit cell, and the passage graph
    has exactly one edge less than it has non-wall cells: it is a tree. *)
Theorem generate_perfect_maze (w h : Z) (r : Random) (fuel : nat) :
  5 <= width (constructor w h) -> 5 <= height (constructor w h) ->
  enough fuel (constructor w h) ->
  exists w', generate fuel {| this := constructor w h; rnd := r |} = Normal w' /\
             getWidth (this w') = getWidth (constructor w h) /\
             getHeight (this w') = getHeight (constructor w h) /\
             getStart (this w') = getStart (constructor w h) /\
             getEnd (this w') = getEnd (constructor w h) /\
             perfect_maze (this w').
Proof.
  intros Hw Hh Hfuel.
  destruct (generate_generated (constructor w h) r fuel) as (w' & Hrun & G);
    [apply constructor_instance|lia|lia|exact Hfuel|].
  exists w'. split; [exact Hrun|].
  destruct (generated_fields _ _ (constructor_instance w h) G) as (Tw & Th & Ts & Te).
  do 4 (split; [assumption|]). clear Tw Th Ts Te.
  apply (generated_perfect (constructor w h)); [lia|lia|apply constructor_instance|exact G].
Qed.

Lemma generate_perfect_maze_witness :
  exists w', generate 35 {| this := constructor 7 5; rnd := rnd0 |} = Normal w' /\
             getWidth (this w') = getWidth (constructor 7 5) /\
             getHeight (this w') = getHeight (constructor 7 5) /\
             getStart (this w') = getStart (constructor 7 5) /\
             getEnd (this w') = getEnd (constructor 7 5) /\
             perfect_maze (this w').
Proof.
  apply (generate_perfect_maze 7 5 rnd0 35); unfold enough; simpl; lia.
Defined.

(** ** C2: the border stays wall *)

(** C2. For every constructor input with normalized width and height at
    least 3, [generate()] completes and leaves the object with the width,
    height, start and end that the constructor set; every border cell of
    the returned grid, those with x = 0, x = width-1, z = 0 or z = height-1,
    has kind Wall. *)
Theorem generate_border_walls (w h : Z) (r : Random) (fuel : nat) :
  3 <= width (constructor w h) -> 3 <= height (constructor w h) ->
  enough fuel (constructor w h) ->
  exists w', generate fuel {| this := constructor w h; rnd := r |} = Normal w' /\
             getWidth (this w') = getWidth (constructor w h) /\
             getHeight (this w') = getHeight (constructor w h) /\
             getStart (this w') = getStart (constructor w h) /\
             getEnd (this w') = getEnd (constructor w h) /\
             forall x z, on_border (this w') x z ->
                         cell (this w') x z = Some WALL /\
                         isWall (this w') x z = Normal true.
Proof.
  intros Hw Hh Hfuel.
  destruct (generate_generated (constructor w h) r fuel (constructor_instance w h)
              Hw Hh Hfuel) as (w' & Hrun & G).
  exists w'. split; [exact Hrun|].
  destruct (generated_fields _ _ (constructor_instance w h) G) as (Tw & Th & Ts & Te).
  do 4 (split; [assumption|]). clear Tw Th Ts Te.
  intros x z [Hin Hedge].
  rewrite (gen_width _ _ G), (gen_height _ _ G) in Hin, Hedge.
  assert (Hnw : nonwall (this w') x z = false).
  { destruct (nonwall (this w') x z) eqn:E; [|reflexivity].
    apply (tl_interior _ _ _ (gen_tree _ _ G)) in E. unfold interior in E. lia. }
  split.
  - by apply (generated_closed_cell (constructor w h)).
  - by rewrite (generated_isWall _ _ _ _ G), Hnw.
Qed.

Lemma generate_border_walls_witness :
  exists w', generate 15 {| this := constructor 4 3; rnd := rnd0 |} = Normal w' /\
             getWidth (this w') = getWidth (constructor 4 3) /\
             getHeight (this w') = getHeight (constructor 4 3) /\
             getStart (this w') = getStart (constructor 4 3) /\
             getEnd (this w') = getEnd (constructor 4 3) /\
             forall x z, on_border (this w') x z ->
                         cell (this w') x z = Some WALL /\
                         isWall (this w') x z = Normal true.
Proof.
  apply (generate_border_walls 4 3 rnd0 15); unfold enough; simpl; lia.
Defined.

(** ** C3: a single exit *)

(** C3. For every constructor input with normalized width and height at
    least 3, [generate()] completes and leaves the object with the width,
    height, start and end that the constructor set; exactly one cell of the
    returned grid has kind Exit: the cell at (width-2, height-2). *)
Theorem generate_single_exit (w h : Z) (r : Random) (fuel : nat) :
  3 <= width (constructor w h) -> 3 <= height (constructor w h) ->
  enough fuel (constructor w h) ->
  exists w', generate fuel {| this := constructor w h; rnd := r |} = Normal w' /\
             getWidth (this w') = getWidth (constructor w h) /\
             getHeight (this w') = getHeight (constructor w h) /\
             getStart (this w') = getStart (constructor w h) /\
             getEnd (this w') = getEnd (constructor w h) /\
             exits (this w') = 1%nat /\
             forall x z, inside (width (this w')) (height (this w')) x z ->
               (cell (this w') x z = Some EXIT
                <-> x = width (this w') - 2 /\ z = height (this w') - 2).
Proof.
  intros Hw Hh Hfuel.
  destruct (generate_generated (constructor w h) r fuel (constructor_instance w h)
              Hw Hh Hfuel) as (w' & Hrun & G).
  exists w'. split; [exact Hrun|].
  destruct (generated_fields _ _ (constructor_instance w h) G) as (Tw & Th & Ts & Te).
  do 4 (split; [assumption|]). clear Tw Th Ts Te.
  unfold exits. rewrite (gen_width _ _ G), (gen_height _ _ G).
  set (W := width (constructor w h)) in *. set (H := height (constructor w h)) in *.
  assert (Hend : inside W H (W - 2) (H - 2)) by (unfold inside; lia).
  split; [|apply (gen_exit _ _ G)].
  apply (countb_single _ _ (W - 2, H - 2)).
  - apply NoDup_cells.
  - by apply elem_of_cells.
  - simpl. by rewrite (proj2 (gen_exit _ _ G _ _ Hend)).
  - intros [x z] Hin%elem_of_cells Hne. simpl.
    destruct (gen_kinds _ _ G x z Hin) as [-> |[-> | E]]; [done..|].
    apply (gen_exit _ _ G _ _ Hin) in E as [-> ->]. done.
Qed.

Lemma generate_single_exit_witness :
  exists w', generate 9 {| this := constructor 3 3; rnd := rnd0 |} = Normal w' /\
             getWidth (this w') = getWidth (constructor 3 3) /\
             getHeight (this w') = getHeight (constructor 3 3) /\
             getStart (this w') = getStart (constructor 3 3) /\
             getEnd (this w') = getEnd (constructor 3 3) /\
             exits (this w') = 1%nat /\
             forall x z, inside (width (this w')) (height (this w')) x z ->
               (cell (this w') x z = Some EXIT
                <-> x = width (this w') - 2 /\ z = height (this w') - 2).
Proof.
  apply (generate_single_exit 3 3 rnd0 9); unfold enough; simpl; lia.
Defined.

(** ** C4: the queries are total once [generate] has run *)

(** C4 as stated fails.  On an instance that [generate()] has not been
    called on, [grid] is [[]] and a query inside the bounds reads a property
    of [undefined]. *)
Lemma queries_fresh_instance_throw :
  isWall (constructor 5 5) 0 0 = Throw TypeError /\
  isExit (constructor 5 5) 0 0 = Throw TypeError /\
  ~ (exists b, isWall (constructor 5 5) 0 0 = Normal b).
Proof.
  split_and!; [reflexivity|reflexivity|]. intros [b Hb]. discriminate Hb.
Qed.

(** C4, amended. For every instance on which [generate()] has completed
    and for all integer coordinates, [isWall] and [isExit] return a boolean
    without raising an error. *)
Theorem queries_total_after_generate (fuel : nat) (w0 w' : World) (x z : Z) :
  generate fuel w0 = Normal w' ->
  exists b1 b2, isWall (this w') x z = Normal b1 /\ isExit (this w') x z = Normal b2.
Proof.
  intros Hrows%generate_rows_ok.
  rewrite isWall_rows_ok, isExit_rows_ok by exact Hrows. eauto.
Qed.

Lemma queries_total_after_generate_witness :
  exists b1 b2, isWall (this (sample_maze 5 5)) 3 3 = Normal b1 /\
                isExit (this (sample_maze 5 5)) 3 3 = Normal b2.
Proof.
  apply (queries_total_after_generate 36 (sample_world 5 5) (sample_maze 5 5) 3 3).
  vm_compute. reflexivity.
Defined.

(** ** C5: degenerate dimensions *)

(** C5 as stated fails.  With a normalized height of 1 the grid has one
    row, and the first assignment of [carvePassages(1, 1)] writes to the
    missing row 1. *)
Lemma generate_degenerate_throws :
  width (constructor 0 0) <= 2 /\
  generate 1 {| this := constructor 0 0; rnd := rnd0 |} = Throw TypeError /\
  forall fuel r,
    ~ (exists w', generate fuel {| this := constructor 0 0; rnd := r |} = Normal w').
Proof.
  split_and!; [simpl; lia|reflexivity|].
  intros [|fuel] r [w' Hrun]; discriminate Hrun.
Qed.

(** With a width of at most 2 no direction is admissible: the loop of
    [carvePassages] changes nothing. *)
Lemma narrow_loop carve x z ds w :
  width (this w) <= 2 -> forOf (carve_step carve x z) ds w = Normal w.
Proof.
  intros Hw. induction ds as [|d ds IH]; [reflexivity|].
  rewrite forOf_cons. unfold carve_step at 1, admissible. cbv zeta.
  destruct (Z.ltb_spec 0 (x + dx d)), (Z.ltb_spec (x + dx d) (width (this w) - 1));
    simpl; (exact IH || lia).
Qed.

Lemma generate_narrow m r fuel :
  instance m -> width m <= 2 -> 3 <= height m ->
  exists w', generate (S fuel) {| this := m; rnd := r |} = Normal w' /\
             length (grid (this w')) = Z.to_nat (height m).
Proof.
  intros [_ _ Hs He] Hw Hh. unfold generate. cbn [this rnd].
  change (set_grid (wall_grid m) m) with (fresh m).
  pose proof (fresh_length m) as Hlen.
  rewrite carvePassages_S.
  destruct (assign_spec 1 1 PASSAGE {| this := fresh m; rnd := r |})
    as (w1 & -> & _ & F1 & _); [cbn [this]; lia|]. cbn [bind].
  destruct (shuffleArray directions (rnd w1)) as [dirs r1].
  destruct F1 as (Fw & Fh & Fs & Fe & Fl). cbn [this] in Fw, Fh, Fs, Fe, Fl.
  change (width (fresh m)) with (width m) in Fw.
  change (start (fresh m)) with (start m) in Fs.
  change (end_ (fresh m)) with (end_ m) in Fe.
  rewrite narrow_loop by (cbn [this]; lia). cbn [bind this].
  rewrite Fs, Hs. cbn [px pz].
  destruct (assign_spec 1 1 PASSAGE {| this := this w1; rnd := r1 |})
    as (w2 & -> & _ & F2 & _); [cbn [this]; lia|]. cbn [bind].
  destruct F2 as (Gw & Gh & Gs & Ge & Gl). cbn [this] in Gw, Gh, Gs, Ge, Gl.
  rewrite Ge, Fe, He. cbn [px pz].
  destruct (assign_spec (height m - 2) (width m - 2) PASSAGE w2)
    as (w3 & -> & _ & F3 & _); [lia|]. cbn [bind].
  destruct F3 as (Kw & Kh & Ks & Ke & Kl).
  rewrite Ke, Ge, Fe, He. cbn [px pz].
  destruct (assign_spec (height m - 2) (width m - 2) EXIT w3)
    as (w4 & -> & _ & F4 & _); [lia|].
  exists w4. split; [reflexivity|]. destruct F4 as (_ & _ & _ & _ & Ll). lia.
Qed.

Lemma generate_flat m r fuel :
  height m <= 1 -> generate (S fuel) {| this := m; rnd := r |} = Throw TypeError.
Proof.
  intros Hh. unfold generate. cbn [this rnd].
  change (set_grid (wall_grid m) m) with (fresh m).
  rewrite carvePassages_S, assign_throws; [reflexivity|].
  cbn [this]. rewrite fresh_length. lia.
Qed.

(** C5, amended. For every constructor input whose normalized width or
    height is at most 2: when the normalized height is at least 3,
    [generate()] runs to completion and returns a grid of [height] rows;
    when the normalized height is at most 2, it raises a [TypeError]. *)
Theorem generate_degenerate (w h : Z) (r : Random) (fuel : nat) :
  width (constructor w h) <= 2 \/ height (constructor w h) <= 2 ->
  (1 <= fuel)%nat ->
  (3 <= height (constructor w h) ->
   exists w', generate fuel {| this := constructor w h; rnd := r |} = Normal w' /\
              length (grid (this w')) = Z.to_nat (height (constructor w h))) /\
  (height (constructor w h) <= 2 ->
   generate fuel {| this := constructor w h; rnd := r |} = Throw TypeError).
Proof.
  intros Hdeg Hfuel. destruct fuel as [|fuel]; [lia|]. split.
  - intros Hh. apply generate_narrow; [apply constructor_instance|lia|exact Hh].
  - intros Hh. apply generate_flat.
    pose proof (in_height _ (constructor_instance w h)). lia.
Qed.

Lemma generate_degenerate_witness :
  (3 <= height (constructor 0 3) ->
   exists w', generate 1 {| this := constructor 0 3; rnd := rnd0 |} = Normal w' /\
              length (grid (this w')) = Z.to_nat (height (constructor 0 3))) /\
  (height (constructor 0 3) <= 2 ->
   generate 1 {| this := constructor 0 3; rnd := rnd0 |} = Throw TypeError).
Proof.
  apply (generate_degenerate 0 3 rnd0 1); simpl; lia.
Defined.

(** ** C6: the constructor forces odd dimensions *)

Lemma odd_normalized (n : Z) :
  (if Z.rem n 2 =? 0 then n + 1 else n) = (if Z.even n then n + 1 else n) /\
  Z.odd (if Z.rem n 2 =? 0 then n + 1 else n) = true.
Proof.
  pose proof (Zmod_even n) as He.
  destruct (Z.eqb_spec (Z.rem n 2) 0) as [E|E], (Z.even n) eqn:Hn; try lia.
  - split; [reflexivity|]. pose proof (Zmod_odd (n + 1)) as Ho.
    destruct (Z.odd (n + 1)); [reflexivity|lia].
  - split; [reflexivity|]. pose proof (Zmod_odd n) as Ho.
    destruct (Z.odd n); [reflexivity|lia].
Qed.

(** A sum or difference below 2^53 in absolute value is a double: it is not
    rounded. *)
Lemma round_double_exact (n : Z) : - 2 ^ 53 < n < 2 ^ 53 -> round_double n = n.
Proof.
  intros Hn. unfold round_double, spacing.
  destruct (Z.ltb_spec (Z.abs n) (2 ^ 53)) as [_|Habs]; [|lia].
  rewrite Z.div_1_r, Z.mul_1_r, Z.sub_diag. reflexivity.
Qed.

(** On inputs between -2^53 + 2 and 2^53 the constructor computes with exact
    sums: it is [constructor]. *)
Lemma constructor_double_exact (w h : Z) :
  - 2 ^ 53 + 2 < w < 2 ^ 53 -> - 2 ^ 53 + 2 < h < 2 ^ 53 ->
  constructor_double w h = constructor w h.
Proof.
  intros Hw Hh. unfold constructor_double, constructor, num_add, num_sub.
  destruct (Z.eqb_spec (Z.rem w 2) 0) as [Ew|Ew], (Z.eqb_spec (Z.rem h 2) 0) as [Eh|Eh];
    rewrite ?(round_double_exact (w + 1)), ?(round_double_exact (h + 1)) by lia;
    rewrite ?(round_double_exact (w + 1 - 2)), ?(round_double_exact (h + 1 - 2)),
      ?(round_double_exact (w - 2)), ?(round_double_exact (h - 2)) by lia;
    reflexivity.
Qed.

(** C6 as stated fails.  The even number 2^53 is a double and 2^53 + 1 is
    not: it lies half way between the doubles 2^53 and 2^53 + 2, and the sum
    [width + 1] is rounded to 2^53.  The stored width is the even 2^53, not
    2^53 + 1, and that is what [getWidth()] returns. *)
Lemma constructor_even_width :
  Z.rem (2 ^ 53) 2 = 0 /\
  getWidth (constructor_double (2 ^ 53) 5) = 2 ^ 53 /\
  getWidth (constructor_double (2 ^ 53) 5) <> 2 ^ 53 + 1 /\
  Z.odd (getWidth (constructor_double (2 ^ 53) 5)) = false /\
  ~ (getWidth (constructor_double (2 ^ 53) 5)
     = (if Z.even (2 ^ 53) then 2 ^ 53 + 1 else 2 ^ 53) /\
     Z.odd (getWidth (constructor_double (2 ^ 53) 5)) = true).
Proof.
  split_and!; [reflexivity|reflexivity|by vm_compute|reflexivity|].
  intros [_ Hodd]. vm_compute in Hodd. discriminate Hodd.
Qed.

(** C6, amended. For every constructor input (w, h) of integers from -2^53
    up to, and not including, 2^53 (the safe integers are among them) the
    stored width is w+1 when w is even and w when w is odd, likewise for h
    and the height; [getWidth()] and [getHeight()] return these values, and
    they are odd. *)
Theorem constructor_odd_dimensions (w h : Z) :
  - 2 ^ 53 <= w < 2 ^ 53 -> - 2 ^ 53 <= h < 2 ^ 53 ->
  getWidth (constructor_double w h) = (if Z.even w then w + 1 else w) /\
  getHeight (constructor_double w h) = (if Z.even h then h + 1 else h) /\
  Z.odd (getWidth (constructor_double w h)) = true /\
  Z.odd (getHeight (constructor_double w h)) = true.
Proof.
  intros Bw Bh.
  unfold getWidth, getHeight, constructor_double, num_add. cbn [width height].
  assert (Ew : (if Z.rem w 2 =? 0 then round_double (w + 1) else w)
               = (if Z.rem w 2 =? 0 then w + 1 else w)).
  { destruct (Z.eqb_spec (Z.rem w 2) 0) as [E|E]; [|reflexivity].
    apply round_double_exact. lia. }
  assert (Eh : (if Z.rem h 2 =? 0 then round_double (h + 1) else h)
               = (if Z.rem h 2 =? 0 then h + 1 else h)).
  { destruct (Z.eqb_spec (Z.rem h 2) 0) as [E|E]; [|reflexivity].
    apply round_double_exact. lia. }
  rewrite Ew, Eh.
  destruct (odd_normalized w) as [Hw Ow], (odd_normalized h) as [Hh Oh].
  rewrite <- Hw, <- Hh. auto.
Qed.

Lemma constructor_odd_dimensions_witness :
  getWidth (constructor_double (2 ^ 53 - 2) (- 2 ^ 53))
  = (if Z.even (2 ^ 53 - 2) then 2 ^ 53 - 2 + 1 else 2 ^ 53 - 2) /\
  getHeight (constructor_double (2 ^ 53 - 2) (- 2 ^ 53))
  = (if Z.even (- 2 ^ 53) then - 2 ^ 53 + 1 else - 2 ^ 53) /\
  Z.odd (getWidth (constructor_double (2 ^ 53 - 2) (- 2 ^ 53))) = true /\
  Z.odd (getHeight (constructor_double (2 ^ 53 - 2) (- 2 ^ 53))) = true.
Proof.
  apply (constructor_odd_dimensions (2 ^ 53 - 2) (- 2 ^ 53)); lia.
Defined.

(** ** C7: out of bounds is wall and not exit *)

(** C7. For every instance and every coordinate out of bounds (x < 0,
    x >= width, z < 0 or z >= height), [isWall] returns true and [isExit]
    returns false. *)
Theorem queries_out_of_bounds (m : MazeGenerator) (x z : Z) :
  x < 0 \/ x >= width m \/ z < 0 \/ z >= height m ->
  isWall m x z = Normal true /\ isExit m x z = Normal false.
Proof.
  intros Hout.
  assert (Hb : out_of_bounds m x z = true).
  { unfold out_of_bounds. rewrite !orb_true_iff, !Z.ltb_lt, !Z.geb_le. lia. }
  unfold isWall, isExit. rewrite Hb. split; reflexivity.
Qed.

Lemma queries_out_of_bounds_witness :
  isWall (constructor 5 5) 5 5 = Normal true /\
  isExit (constructor 5 5) 5 5 = Normal false.
Proof.
  apply (queries_out_of_bounds (constructor 5 5) 5 5). simpl. lia.
Defined.

(** ** C8: start and end are open *)

(** C8. For every constructor input with normalized width and height at
    least 3, [generate()] completes and leaves the object with the width,
    height, start and end that the constructor set: [getStart()] is (1,1),
    [getEnd()] is (width-2, height-2), and the cells there are of kind
    Passage or Exit: [isWall] is false on both. *)
Theorem generate_endpoints_open (w h : Z) (r : Random) (fuel : nat) :
  3 <= width (constructor w h) -> 3 <= height (constructor w h) ->
  enough fuel (constructor w h) ->
  exists w', generate fuel {| this := constructor w h; rnd := r |} = Normal w' /\
    getWidth (this w') = getWidth (constructor w h) /\
    getHeight (this w') = getHeight (constructor w h) /\
    getStart (this w') = getStart (constructor w h) /\
    getEnd (this w') = getEnd (constructor w h) /\
    getStart (this w') = {| px := 1; pz := 1 |} /\
    getEnd (this w') = {| px := getWidth (this w') - 2; pz := getHeight (this w') - 2 |} /\
    nonwall (this w') (px (getStart (this w'))) (pz (getStart (this w'))) = true /\
    nonwall (this w') (px (getEnd (this w'))) (pz (getEnd (this w'))) = true /\
    isWall (this w') (px (getStart (this w'))) (pz (getStart (this w'))) = Normal false /\
    isWall (this w') (px (getEnd (this w'))) (pz (getEnd (this w'))) = Normal false.
Proof.
  intros Hw Hh Hfuel.
  destruct (generate_generated (constructor w h) r fuel (constructor_instance w h)
              Hw Hh Hfuel) as (w' & Hrun & G).
  exists w'. split; [exact Hrun|].
  destruct (generated_fields _ _ (constructor_instance w h) G) as (Tw & Th & Ts & Te).
  do 4 (split; [assumption|]). clear Tw Th Ts Te.
  destruct (generated_perfect _ _ Hw Hh (constructor_instance w h) G) as (Hs & He & _).
  rewrite !(generated_isWall _ _ _ _ G), Hs, He.
  unfold getStart, getEnd, getWidth, getHeight.
  rewrite (gen_start _ _ G), (gen_end _ _ G), (gen_width _ _ G), (gen_height _ _ G).
  split_and!; reflexivity.
Qed.

Lemma generate_endpoints_open_witness :
  exists w', generate 21 {| this := constructor 3 6; rnd := rnd0 |} = Normal w' /\
    getWidth (this w') = getWidth (constructor 3 6) /\
    getHeight (this w') = getHeight (constructor 3 6) /\
    getStart (this w') = getStart (constructor 3 6) /\
    getEnd (this w') = getEnd (constructor 3 6) /\
    getStart (this w') = {| px := 1; pz := 1 |} /\
    getEnd (this w') = {| px := getWidth (this w') - 2; pz := getHeight (this w') - 2 |} /\
    nonwall (this w') (px (getStart (this w'))) (pz (getStart (this w'))) = true /\
    nonwall (this w') (px (getEnd (this w'))) (pz (getEnd (this w'))) = true /\
    isWall (this w') (px (getStart (this w'))) (pz (getStart (this w'))) = Normal false /\
    isWall (this w') (px (getEnd (this w'))) (pz (getEnd (this w'))) = Normal false.
Proof.
  apply (generate_endpoints_open 3 6 rnd0 21); unfold enough; simpl; lia.
Defined.

(** ** C9: the exit is not a wall *)

(** C9. For every instance, in whatever state, and all integer
    coordinates: if [isExit(x, z)] returns true then [isWall(x, z)] returns
    false. *)
Theorem exit_is_not_wall (m : MazeGenerator) (x z : Z) :
  isExit m x z = Normal true -> isWall m x z = Normal false.
Proof.
  unfold isExit, isWall. destruct (out_of_bounds m x z); [discriminate|].
  destruct (grid_get (grid m) z x) as [[v|]| |]; simpl; try discriminate.
  unfold EXIT, WALL. intros [= Hv%Z.eqb_eq]. subst v. reflexivity.
Qed.

Lemma exit_is_not_wall_witness : isWall (this (sample_maze 5 5)) 3 3 = Normal false.
Proof.
  apply (exit_is_not_wall (this (sample_maze 5 5)) 3 3). vm_compute. reflexivity.
Defined.

(** ** C10: the 3 x 3 maze *)

(** C10. When each constructor input is 2 or 3 the normalized dimensions
    are 3 x 3, [getStart()] and [getEnd()] are the same coordinate (1,1), and
    after [generate()] that cell has kind Exit, not Passage. *)
Theorem generate_three_by_three (w h : Z) (r : Random) (fuel : nat) :
  w = 2 \/ w = 3 -> h = 2 \/ h = 3 -> (9 <= fuel)%nat ->
  getWidth (constructor w h) = 3 /\ getHeight (constructor w h) = 3 /\
  getStart (constructor w h) = {| px := 1; pz := 1 |} /\
  getEnd (constructor w h) = {| px := 1; pz := 1 |} /\
  exists w', generate fuel {| this := constructor w h; rnd := r |} = Normal w' /\
    getStart (this w') = getEnd (this w') /\
    cell (this w') (px (getStart (this w'))) (pz (getStart (this w'))) = Some EXIT /\
    isExit (this w') 1 1 = Normal true.
Proof.
  intros Hw Hh Hfuel.
  assert (Hdim : width (constructor w h) = 3 /\ height (constructor w h) = 3)
    by (destruct Hw as [-> | ->], Hh as [-> | ->]; split; reflexivity).
  destruct Hdim as [Ew Eh].
  assert (Hend : end_ (constructor w h) = {| px := 1; pz := 1 |})
    by (destruct Hw as [-> | ->], Hh as [-> | ->]; reflexivity).
  split_and!; try done.
  destruct (generate_generated (constructor w h) r fuel (constructor_instance w h))
    as (w' & Hrun & G); [lia|lia|rewrite Ew, Eh; simpl; lia|].
  exists w'. split; [exact Hrun|]. unfold getStart, getEnd.
  rewrite (gen_start _ _ G), (gen_end _ _ G), Ew, Eh. simpl.
  assert (Hexit : cell (this w') 1 1 = Some EXIT).
  { apply (gen_exit _ _ G); rewrite Ew, Eh; unfold inside; lia. }
  split_and!; [done|done|].
  rewrite (isExit_rows_ok _ _ _ (gen_rows _ _ G)), Hexit.
  unfold out_of_bounds. rewrite (gen_width _ _ G), (gen_height _ _ G), Ew, Eh. reflexivity.
Qed.

Lemma generate_three_by_three_witness :
  getWidth (constructor 2 3) = 3 /\ getHeight (constructor 2 3) = 3 /\
  getStart (constructor 2 3) = {| px := 1; pz := 1 |} /\
  getEnd (constructor 2 3) = {| px := 1; pz := 1 |} /\
  exists w', generate 9 {| this := constructor 2 3; rnd := rnd0 |} = Normal w' /\
    getStart (this w') = getEnd (this w') /\
    cell (this w') (px (getStart (this w'))) (pz (getStart (this w'))) = Some EXIT /\
    isExit (this w') 1 1 = Normal true.
Proof.
  apply (generate_three_by_three 2 3 rnd0 9); lia.
Defined.

(** * Further properties of the code *)

(** ** [shuffleArray] *)

Lemma insert_head_perm (l : list dir) (k : nat) (x y : dir) :
  l !! k = Some y -> y :: <[k := x]> l ≡ₚ x :: l.
Proof.
  revert k. induction l as [|b l IH]; intros [|k] Hk; try done; simpl in *.
  - injection Hk as ->. apply Permutation_swap.
  - rewrite (Permutation_swap b y), (IH _ Hk). apply Permutation_swap.
Qed.

Lemma swap_perm (i j : nat) (l : list dir) : swap i j l ≡ₚ l.
Proof.
  unfold swap. destruct (l !! i) as [vi|] eqn:Hi; [|done].
  destruct (l !! j) as [vj|] eqn:Hj; [|done].
  revert i j Hi Hj. induction l as [|a l IH]; intros [|i] [|j] Hi Hj; try done;
    simpl in *.
  - by injection Hi as ->; injection Hj as ->.
  - injection Hi as ->. by apply insert_head_perm.
  - injection Hj as ->. by apply insert_head_perm.
  - by rewrite IH.
Qed.

Lemma shuffle_loop_perm (i : nat) (l : list dir) (r : Random) :
  (shuffle_loop i l r).1 ≡ₚ l.
Proof.
  revert l r. induction i as [|i IH]; intros l r; simpl; [done|].
  rewrite IH. apply swap_perm.
Qed.

(** X1. [shuffleArray] returns a permutation of the array it is given,
    whatever the random source: the same elements with the same numbers of
    occurrences, hence the same length. *)
Theorem shuffleArray_permutation (l : list dir) (r : Random) :
  (shuffleArray l r).1 ≡ₚ l /\ length (shuffleArray l r).1 = length l.
Proof.
  assert (Hp : (shuffleArray l r).1 ≡ₚ l) by apply shuffle_loop_perm.
  split; [exact Hp|]. by rewrite Hp.
Qed.

Lemma shuffle_loop_reads (i : nat) (l : list dir) (r r' : Random) :
  (forall k, (k < i)%nat -> r k = r' k) ->
  (shuffle_loop i l r).1 = (shuffle_loop i l r').1.
Proof.
  revert l r r'. induction i as [|i IH]; intros l r r' Hr; simpl; [done|].
  rewrite (Hr 0%nat) by lia. apply IH. intros k Hk. apply Hr. lia.
Qed.

Lemma shuffle_loop_rest (i : nat) (l : list dir) (r : Random) (k : nat) :
  (shuffle_loop i l r).2 k = r (i + k)%nat.
Proof.
  revert l r. induction i as [|i IH]; intros l r; simpl; [done|].
  by rewrite IH.
Qed.

(** X2. [shuffleArray] on an array of length n calls [Math.random] exactly
    n-1 times: its result is the same for two random sources that agree on
    their first n-1 draws, and the source it leaves starts at draw n-1. *)
Theorem shuffleArray_draws (l : list dir) (r r' : Random) :
  (forall k, (k < length l - 1)%nat -> r k = r' k) ->
  (shuffleArray l r).1 = (shuffleArray l r').1 /\
  forall k, (shuffleArray l r).2 k = r (length l - 1 + k)%nat.
Proof.
  intros Hr. split.
  - by apply shuffle_loop_reads.
  - intros k. apply shuffle_loop_rest.
Qed.

Lemma shuffleArray_draws_witness :
  (shuffleArray directions rnd0).1 = (shuffleArray directions (draws [0; 1; 2]%nat)).1 /\
  forall k, (shuffleArray directions rnd0).2 k = rnd0 (length directions - 1 + k)%nat.
Proof.
  apply (shuffleArray_draws directions rnd0 (draws [0; 1; 2]%nat)).
  intros [|[|[|k]]] Hk; simpl in *; (reflexivity || lia).
Defined.

Lemma shuffle_loop_S (i : nat) (l : list dir) (r : Random) :
  shuffle_loop (S i) l r
  = shuffle_loop i (swap (S i) (r 0%nat `mod` (S i + 1))%nat l) (fun k => r (S k)).
Proof. reflexivity. Qed.

Lemma shuffle_directions_draws (r : Random) :
  (shuffleArray directions r).1
  = (shuffleArray directions
       (draws [r 0 `mod` 4; r 1 `mod` 3; r 2 `mod` 2])%nat).1.
Proof.
  remember (r 0 `mod` 4)%nat as a eqn:Ea.
  remember (r 1 `mod` 3)%nat as b eqn:Eb.
  remember (r 2 `mod` 2)%nat as c eqn:Ec.
  unfold shuffleArray. change (length directions - 1)%nat with 3%nat.
  rewrite !shuffle_loop_S. cbv beta.
  change (draws [a; b; c] 0%nat) with a.
  change (draws [a; b; c] 1%nat) with b.
  change (draws [a; b; c] 2%nat) with c.
  change (3 + 1)%nat with 4%nat. change (2 + 1)%nat with 3%nat.
  change (1 + 1)%nat with 2%nat.
  subst a b c. by rewrite !Nat.Div0.mod_mod.
Qed.

Lemma orderings_lookup (a b c : nat) :
  (a < 4)%nat -> (b < 3)%nat -> (c < 2)%nat ->
  orderings !! (a * 6 + b * 2 + c)%nat
  = Some (shuffleArray directions (draws [a; b; c])).1.
Proof.
  intros Ha Hb Hc.
  destruct a as [|[|[|[|a]]]]; [..|lia];
    (destruct b as [|[|[|b]]]; [..|lia]);
    (destruct c as [|[|c]]; [..|lia]); reflexivity.
Qed.

Lemma orderings_NoDup : NoDup orderings.
Proof. apply (bool_decide_unpack _). by vm_compute. Qed.

Lemma orderings_complete : Forall (fun l => l ∈ orderings) (permutations directions).
Proof. apply (bool_decide_unpack _). by vm_compute. Qed.

Lemma index_triple (i : nat) :
  (i < 24)%nat ->
  exists a b c : nat, (a < 4)%nat /\ (b < 3)%nat /\ (c < 2)%nat /\
                      i = (a * 6 + b * 2 + c)%nat.
Proof.
  intros Hi. exists (i / 6)%nat, (i `mod` 6 / 2)%nat, (i `mod` 2)%nat.
  do 24 (destruct i as [|i]; [vm_compute; repeat split; lia|]). lia.
Qed.

(** X3. The shuffle of the four directions is unbiased: every ordering of
    the four directions is the result for exactly one triple of draws
    (a, b, c) with a < 4, b < 3 and c < 2. *)
Theorem shuffle_directions_bijective (l : list dir) :
  l ≡ₚ directions ->
  exists a b c : nat,
    ((a < 4)%nat /\ (b < 3)%nat /\ (c < 2)%nat) /\
    (shuffleArray directions (draws [a; b; c])).1 = l /\
    forall a' b' c' : nat, (a' < 4)%nat -> (b' < 3)%nat -> (c' < 2)%nat ->
      (shuffleArray directions (draws [a'; b'; c'])).1 = l ->
      a' = a /\ b' = b /\ c' = c.
Proof.
  intros Hl. symmetry in Hl. apply permutations_Permutation in Hl.
  pose proof orderings_complete as Hall. rewrite Forall_forall in Hall.
  apply Hall, list_elem_of_lookup in Hl as [i Hi].
  assert (Hlt : (i < 24)%nat) by (apply lookup_lt_Some in Hi; exact Hi).
  destruct (index_triple i Hlt) as (a & b & c & Ha & Hb & Hc & ->).
  exists a, b, c. split; [done|].
  pose proof (orderings_lookup _ _ _ Ha Hb Hc) as Hlook.
  split; [congruence|].
  intros a' b' c' Ha' Hb' Hc' Heq.
  pose proof (orderings_lookup _ _ _ Ha' Hb' Hc') as Hlook'. rewrite Heq in Hlook'.
  pose proof (NoDup_lookup _ _ _ _ orderings_NoDup Hlook' Hi). lia.
Qed.

Lemma shuffle_directions_bijective_witness :
  exists a b c : nat,
    ((a < 4)%nat /\ (b < 3)%nat /\ (c < 2)%nat) /\
    (shuffleArray directions (draws [a; b; c])).1 = reverse directions /\
    forall a' b' c' : nat, (a' < 4)%nat -> (b' < 3)%nat -> (c' < 2)%nat ->
      (shuffleArray directions (draws [a'; b'; c'])).1 = reverse directions ->
      a' = a /\ b' = b /\ c' = c.
Proof.
  apply (shuffle_directions_bijective (reverse directions)).
  apply (bool_decide_unpack _). vm_compute. exact I.
Defined.

(** ** The lattice of rooms and pillars *)

(** X4. For every constructor input with normalized width and height at
    least 3, [generate()] keeps the width, height, start and end that the
    constructor set, and in the grid it returns every cell, within that
    width and height, with both coordinates odd is non-wall (carving reaches
    every room) and every cell with both coordinates even is Wall, whatever
    the random draws. *)
Theorem generate_lattice (w h : Z) (r : Random) (fuel : nat) :
  3 <= width (constructor w h) -> 3 <= height (constructor w h) ->
  enough fuel (constructor w h) ->
  exists w', generate fuel {| this := constructor w h; rnd := r |} = Normal w' /\
    getWidth (this w') = getWidth (constructor w h) /\
    getHeight (this w') = getHeight (constructor w h) /\
    getStart (this w') = getStart (constructor w h) /\
    getEnd (this w') = getEnd (constructor w h) /\
    forall x z, inside (getWidth (constructor w h)) (getHeight (constructor w h)) x z ->
      (x mod 2 = 1 -> z mod 2 = 1 -> nonwall (this w') x z = true) /\
      (x mod 2 = 0 -> z mod 2 = 0 -> cell (this w') x z = Some WALL).
Proof.
  intros Hw Hh Hfuel.
  pose proof (constructor_instance w h) as Hinst.
  destruct (generate_generated (constructor w h) r fuel Hinst Hw Hh Hfuel)
    as (w' & Hrun & G).
  exists w'. split; [exact Hrun|].
  destruct (generated_fields _ _ (constructor_instance w h) G) as (Tw & Th & Ts & Te).
  do 4 (split; [assumption|]). clear Tw Th Ts Te.
  unfold getWidth, getHeight. intros x z Hin. split.
  - intros Hx Hz. apply (gen_rooms _ _ G); [exact Hx|exact Hz|].
    destruct Hinst as [Iw Ih _ _]. unfold inside, interior in *. lia.
  - intros Hx Hz. apply (generated_closed_cell _ _ _ _ G Hin).
    destruct (nonwall (this w') x z) eqn:E; [|reflexivity].
    apply (tl_parity _ _ _ (gen_tree _ _ G)) in E. lia.
Qed.

Lemma generate_lattice_witness :
  exists w', generate 35 {| this := constructor 5 7; rnd := rnd0 |} = Normal w' /\
    getWidth (this w') = getWidth (constructor 5 7) /\
    getHeight (this w') = getHeight (constructor 5 7) /\
    getStart (this w') = getStart (constructor 5 7) /\
    getEnd (this w') = getEnd (constructor 5 7) /\
    forall x z, inside (getWidth (constructor 5 7)) (getHeight (constructor 5 7)) x z ->
      (x mod 2 = 1 -> z mod 2 = 1 -> nonwall (this w') x z = true) /\
      (x mod 2 = 0 -> z mod 2 = 0 -> cell (this w') x z = Some WALL).
Proof.
  apply (generate_lattice 5 7 rnd0 35); unfold enough; simpl; lia.
Defined.

(** ** Calling [generate] again *)

Lemma generated_instance m g : instance m -> generated m g -> instance g.
Proof.
  intros [Iw Ih Is Ie] G. split.
  - by rewrite (gen_width _ _ G).
  - by rewrite (gen_height _ _ G).
  - apply (gen_start _ _ G).
  - by rewrite (gen_end _ _ G), (gen_width _ _ G), (gen_height _ _ G).
Qed.

Lemma generated_exits m g :
  3 <= width m -> 3 <= height m -> generated m g -> exits g = 1%nat.
Proof.
  intros Hw Hh G. unfold exits. rewrite (gen_width _ _ G), (gen_height _ _ G).
  assert (Hend : inside (width m) (height m) (width m - 2) (height m - 2))
    by (unfold inside; lia).
  apply (countb_single _ _ (width m - 2, height m - 2)).
  - apply NoDup_cells.
  - by apply elem_of_cells.
  - simpl. by rewrite (proj2 (gen_exit _ _ G _ _ Hend)).
  - intros [x z] Hin%elem_of_cells Hne. simpl.
    destruct (gen_kinds _ _ G x z Hin) as [-> |[-> | E]]; [done..|].
    apply (gen_exit _ _ G _ _ Hin) in E as [-> ->]. done.
Qed.

(** X5. [generate()] can be called again on the same object: for normalized
    width and height at least 3 the second call completes too, whatever grid
    and random source the first call left, keeps the dimensions and the end
    points, and returns a perfect maze with a single exit. *)
Theorem generate_again (w h : Z) (r : Random) (fuel fuel' : nat) :
  3 <= width (constructor w h) -> 3 <= height (constructor w h) ->
  enough fuel (constructor w h) -> enough fuel' (constructor w h) ->
  exists w1 w2,
    generate fuel {| this := constructor w h; rnd := r |} = Normal w1 /\
    generate fuel' w1 = Normal w2 /\
    getWidth (this w2) = getWidth (constructor w h) /\
    getHeight (this w2) = getHeight (constructor w h) /\
    getStart (this w2) = getStart (constructor w h) /\
    getEnd (this w2) = getEnd (constructor w h) /\
    perfect_maze (this w2) /\ exits (this w2) = 1%nat.
Proof.
  intros Hw Hh Hfuel Hfuel'.
  pose proof (constructor_instance w h) as Hinst.
  destruct (generate_generated (constructor w h) r fuel Hinst Hw Hh Hfuel)
    as (w1 & Hrun1 & G1).
  pose proof (generated_instance _ _ Hinst G1) as Hinst1.
  pose proof (gen_width _ _ G1) as Ew. pose proof (gen_height _ _ G1) as Eh.
  destruct (generate_generated (this w1) (rnd w1) fuel' Hinst1) as (w2 & Hrun2 & G2).
  { lia. }
  { lia. }
  { unfold enough in Hfuel'. by rewrite Ew, Eh. }
  exists w1, w2. split; [exact Hrun1|]. split; [by destruct w1|].
  unfold getWidth, getHeight, getStart, getEnd.
  rewrite (gen_width _ _ G2), (gen_height _ _ G2), (gen_start _ _ G2),
    (gen_end _ _ G2), Ew, Eh.
  split_and!; try done.
  - apply (generated_perfect (this w1)); [lia|lia|done|done].
  - apply (generated_exits (this w1)); [lia|lia|done].
Qed.

Lemma generate_again_witness :
  exists w1 w2,
    generate 15 {| this := constructor 5 3; rnd := rnd0 |} = Normal w1 /\
    generate 20 w1 = Normal w2 /\
    getWidth (this w2) = getWidth (constructor 5 3) /\
    getHeight (this w2) = getHeight (constructor 5 3) /\
    getStart (this w2) = getStart (constructor 5 3) /\
    getEnd (this w2) = getEnd (constructor 5 3) /\
    perfect_maze (this w2) /\ exits (this w2) = 1%nat.
Proof.
  apply (generate_again 5 3 rnd0 15 20); unfold enough; simpl; lia.
Defined.

(** ** Narrow grids *)




(** ** The grid stays a matrix *)

Lemma arr_set_dense n k v a : dense n a -> 0 <= k < n -> dense n (arr_set k v a).
Proof.
  intros [Hlen Hdom] Hk. split.
  - unfold arr_set. simpl. destruct (Z.leb_spec 0 k); lia.
  - intros j. unfold arr_get, arr_set in *. simpl.
    rewrite lookup_insert_is_Some, Hdom. split.
    + intros [<-|[_ ?]]; done.
    + intros Hj. destruct (decide (k = j)); [by left|by right].
Qed.

Lemma wall_row_dense m : 0 <= width m -> dense (width m) (wall_row m).
Proof.
  intros Hw. unfold wall_row.
  destruct (wall_row_spec (Z.to_nat (width m))) as [Hlen Hget].
  split; [lia|]. intros k. rewrite Hget.
  destruct (Z.leb_spec 0 k), (Z.ltb_spec k (Z.of_nat (Z.to_nat (width m)))); simpl;
    split; intros Hk; try lia; try done; by destruct Hk.
Qed.

Lemma fresh_matrix m : 0 <= width m -> matrix (fresh m).
Proof.
  intros Hw. split; [apply (fresh_length m)|]. simpl.
  rewrite wall_grid_replicate. by apply Forall_replicate, wall_row_dense.
Qed.

Lemma assign_matrix z x v w w' :
  assign z x v w = Normal w' -> 0 <= x < width (this w) ->
  matrix (this w) -> matrix (this w').
Proof.
  unfold assign, grid_set. destruct (grid_row _ z) as [row|] eqn:Hrow; [|done].
  simpl. intros [= <-] Hx [Hlen Hrows]. split; simpl.
  - by rewrite length_insert.
  - apply Forall_insert; [done|]. apply arr_set_dense; [|done].
    unfold grid_row in Hrow. destruct (z <? 0); [done|].
    by eapply Forall_lookup_1.
Qed.

Lemma admissible_true m a b :
  admissible m a b = Normal true ->
  0 < a < width m - 1 /\ 0 < b < height m - 1.
Proof.
  unfold admissible.
  destruct (Z.ltb_spec 0 a), (Z.ltb_spec a (width m - 1)), (Z.ltb_spec 0 b),
    (Z.ltb_spec b (height m - 1)); simpl; (done || lia).
Qed.

Lemma carvePassages_matrix fuel :
  forall x z w w', carvePassages fuel x z w = Normal w' ->
    0 <= x < width (this w) -> matrix (this w) -> matrix (this w').
Proof.
  induction fuel as [|fuel IH]; intros x z w w'; [done|].
  rewrite carvePassages_S.
  destruct (assign z x PASSAGE w) as [w1| |] eqn:E1; [|done..]. cbn [bind].
  destruct (shuffleArray directions (rnd w1)) as [dirs r] eqn:Hsh.
  intros Hloop Hx Hm.
  assert (Hdirs : forall d, d ∈ dirs -> d ∈ directions).
  { intros d. rewrite <- (shuffleArray_elem directions (rnd w1)). by rewrite Hsh. }
  pose proof (assign_matrix _ _ _ _ _ E1 Hx Hm) as Hm1.
  pose proof (assign_frame _ _ _ _ _ E1) as (Fw & _).
  assert (Hx1 : 0 <= x < width (this {| this := this w1; rnd := r |}))
    by (cbn [this]; lia).
  change (this w1) with (this {| this := this w1; rnd := r |}) in Hm1.
  clear E1 Hsh Fw Hm Hx.
  revert Hloop Hm1 Hx1. generalize {| this := this w1; rnd := r |}. clear w1 w.
  induction dirs as [|d ds IHds]; intros u Hloop Hm Hx.
  { by injection Hloop as <-. }
  rewrite forOf_cons in Hloop. unfold carve_step at 1 in Hloop. cbv zeta in Hloop.
  destruct (admissible (this u) (x + dx d) (z + dz d)) as [[|]| |] eqn:Ea;
    cbn [bind] in Hloop; try done.
  - apply admissible_true in Ea as [Ha _].
    destruct (assign (z + dz d / 2) (x + dx d / 2) PASSAGE u) as [u1| |] eqn:E2;
      [|done..]. cbn [bind] in Hloop.
    destruct (carvePassages fuel (x + dx d) (z + dz d) u1) as [u2| |] eqn:E3;
      [|done..]. cbn [bind] in Hloop.
    assert (Hmid : 0 <= x + dx d / 2 < width (this u)).
    { destruct (dir_cases d (Hdirs d ltac:(left)))
        as [[Ex Ez]|[[Ex Ez]|[[Ex Ez]|[Ex Ez]]]]; rewrite Ex in *; lia. }
    pose proof (assign_matrix _ _ _ _ _ E2 Hmid Hm) as Hm1.
    pose proof (assign_frame _ _ _ _ _ E2) as (Fw & _).
    pose proof (carvePassages_frame _ _ _ _ _ E3) as (Gw & _).
    apply (IHds (fun d' Hd' => Hdirs d' ltac:(by right)) u2 Hloop).
    + eapply IH; [exact E3|lia|exact Hm1].
    + lia.
  - apply (IHds (fun d' Hd' => Hdirs d' ltac:(by right)) u Hloop Hm Hx).
Qed.

Lemma generate_matrix fuel w w' :
  generate fuel w = Normal w' -> instance (this w) -> 3 <= width (this w) ->
  matrix (this w').
Proof.
  unfold generate. intros Hrun [_ _ Hs He] Hw.
  change (set_grid (wall_grid (this w)) (this w)) with (fresh (this w)) in Hrun.
  destruct (carvePassages fuel 1 1 _) as [w1| |] eqn:E1; [|done..]. cbn [bind] in Hrun.
  destruct (assign _ _ PASSAGE w1) as [w2| |] eqn:E2; [|done..]. cbn [bind] in Hrun.
  destruct (assign _ _ PASSAGE w2) as [w3| |] eqn:E3; [|done..]. cbn [bind] in Hrun.
  pose proof (carvePassages_frame _ _ _ _ _ E1) as (Fw & _ & Fs & Fe & _).
  pose proof (assign_frame _ _ _ _ _ E2) as (Gw & _ & _ & Ge & _).
  pose proof (assign_frame _ _ _ _ _ E3) as (Kw & _ & _ & Ke & _).
  cbn [this] in Fw, Fs, Fe.
  change (width (fresh (this w))) with (width (this w)) in Fw.
  change (start (fresh (this w))) with (start (this w)) in Fs.
  change (end_ (fresh (this w))) with (end_ (this w)) in Fe.
  rewrite Fs, Hs in E2. rewrite Ge, Fe, He in E3. rewrite Ke, Ge, Fe, He in Hrun.
  cbn [px pz] in E2, E3, Hrun.
  eapply assign_matrix; [exact Hrun|lia|].
  eapply assign_matrix; [exact E3|lia|].
  eapply assign_matrix; [exact E2|lia|].
  eapply carvePassages_matrix; [exact E1| |].
  { cbn [this]. change (width (fresh (this w))) with (width (this w)). lia. }
  apply fresh_matrix. lia.
Qed.

(** X7. For every constructor input with normalized width and height at
    least 3, [generate()] keeps the width, height, start and end that the
    constructor set, and the grid it returns is a matrix of these
    dimensions: it has [height] rows, and every row is an array of length
    [width] that holds 0, 1 or 2 at each index below [width] and has no
    other property. *)
Theorem generate_returns_matrix (w h : Z) (r : Random) (fuel : nat) :
  3 <= width (constructor w h) -> 3 <= height (constructor w h) ->
  enough fuel (constructor w h) ->
  exists w', generate fuel {| this := constructor w h; rnd := r |} = Normal w' /\
    getWidth (this w') = getWidth (constructor w h) /\
    getHeight (this w') = getHeight (constructor w h) /\
    getStart (this w') = getStart (constructor w h) /\
    getEnd (this w') = getEnd (constructor w h) /\
    Z.of_nat (length (grid (this w'))) = getHeight (constructor w h) /\
    forall row, row ∈ grid (this w') ->
      alength row = getWidth (constructor w h) /\
      forall k,
        (0 <= k < getWidth (constructor w h) ->
         arr_get k row = Some PASSAGE \/ arr_get k row = Some WALL \/
         arr_get k row = Some EXIT) /\
        (~ 0 <= k < getWidth (constructor w h) -> arr_get k row = None).
Proof.
  intros Hw Hh Hfuel.
  pose proof (constructor_instance w h) as Hinst.
  destruct (generate_generated (constructor w h) r fuel Hinst Hw Hh Hfuel)
    as (w' & Hrun & G).
  exists w'. split; [exact Hrun|].
  destruct (generated_fields _ _ (constructor_instance w h) G) as (Tw & Th & Ts & Te).
  do 4 (split; [assumption|]). clear Tw Th Ts Te.
  destruct (generate_matrix _ _ _ Hrun Hinst Hw) as [Hlen Hrows].
  unfold getWidth, getHeight.
  pose proof (gen_width _ _ G) as Ew. pose proof (gen_height _ _ G) as Eh.
  rewrite <- Ew, <- Eh.
  split; [lia|]. intros row Hrow.
  destruct (proj1 (Forall_forall _ _) Hrows row Hrow) as [Hal Hdom].
  split; [exact Hal|]. intros k. split.
  - intros Hk. apply list_elem_of_lookup in Hrow as [i Hi].
    pose proof (lookup_lt_Some _ _ _ Hi) as Hlt.
    assert (Hin : inside (width (constructor w h)) (height (constructor w h))
                    k (Z.of_nat i)) by (unfold inside; lia).
    pose proof (gen_kinds _ _ G _ _ Hin) as Hkind.
    unfold cell, grid_row in Hkind.
    destruct (Z.ltb_spec (Z.of_nat i) 0); [lia|].
    by rewrite Nat2Z.id, Hi in Hkind.
  - intros Hk. destruct (arr_get k row) eqn:E; [|done].
    exfalso. apply Hk, Hdom. by rewrite E.
Qed.

Lemma generate_returns_matrix_witness :
  exists w', generate 15 {| this := constructor 3 5; rnd := rnd0 |} = Normal w' /\
    getWidth (this w') = getWidth (constructor 3 5) /\
    getHeight (this w') = getHeight (constructor 3 5) /\
    getStart (this w') = getStart (constructor 3 5) /\
    getEnd (this w') = getEnd (constructor 3 5) /\
    Z.of_nat (length (grid (this w'))) = getHeight (constructor 3 5) /\
    forall row, row ∈ grid (this w') ->
      alength row = getWidth (constructor 3 5) /\
      forall k,
        (0 <= k < getWidth (constructor 3 5) ->
         arr_get k row = Some PASSAGE \/ arr_get k row = Some WALL \/
         arr_get k row = Some EXIT) /\
        (~ 0 <= k < getWidth (constructor 3 5) -> arr_get k row = None).
Proof.
  apply (generate_returns_matrix 3 5 rnd0 15); unfold enough; simpl; lia.
Defined.

(** ** Counting the cells of a generated maze *)

Lemma countb_filter {A} (f : A -> bool) l :
  countb f l = length (filter (fun a => f a = true) l).
Proof.
  induction l as [|a l IH]; [done|]. simpl. destruct (f a) eqn:E.
  - rewrite filter_cons_True by done. simpl. by rewrite IH.
  - rewrite filter_cons_False by (rewrite E; done). by rewrite IH.
Qed.

Lemma countb_as_length {A} (g : A -> bool) l l' :
  NoDup l -> NoDup l' -> (forall c, c ∈ l' <-> c ∈ l /\ g c = true) ->
  countb g l = length l'.
Proof.
  intros Hl Hl' Hiff. rewrite countb_filter. apply Permutation_length.
  apply NoDup_Permutation; [by apply NoDup_filter|done|].
  intros c. rewrite list_elem_of_filter, Hiff. tauto.
Qed.

Lemma countb_shift {A} (f : A -> A) `{!Inj (=) (=) f} (g : A -> bool) l :
  NoDup l ->
  (forall c, c ∈ l -> g (f c) = true -> f c ∈ l) ->
  (forall c, c ∈ l -> g c = true -> exists c', c' ∈ l /\ f c' = c) ->
  countb (fun c => g (f c)) l = countb g l.
Proof.
  intros Hl Hin Hpre.
  rewrite (countb_as_length g l (f <$> filter (fun c => g (f c) = true) l)).
  - by rewrite length_fmap, countb_filter.
  - done.
  - apply (NoDup_fmap_2 f). by apply NoDup_filter.
  - intros c. rewrite list_elem_of_fmap. split.
    + intros (c' & -> & Hc'). apply list_elem_of_filter in Hc' as [Hg Hc'].
      split; [by apply Hin|done].
    + intros [Hc Hg]. destruct (Hpre c Hc Hg) as (c' & Hc' & <-).
      exists c'. split; [done|]. by apply list_elem_of_filter.
Qed.

#[local] Instance right_inj : Inj (=) (=) (fun c : coord => (c.1 + 1, c.2)).
Proof. intros [a b] [a' b'] [= ? ?]. f_equal; lia. Qed.

#[local] Instance down_inj : Inj (=) (=) (fun c : coord => (c.1, c.2 + 1)).
Proof. intros [a b] [a' b'] [= ? ?]. f_equal; lia. Qed.

#[local] Instance room_at_inj : Inj (=) (=) (fun c : coord => (2 * c.1 + 1, 2 * c.2 + 1)).
Proof. intros [a b] [a' b'] [= ? ?]. f_equal; lia. Qed.

Section Census.
Variables W H : Z.
Variable p : cellset.
Hypothesis T : tree_like W H p.

Lemma nodes_by_parity :
  nodes W H p
  = (countb (room p) (cells W H) + countb (hdoor p) (cells W H)
     + countb (vdoor p) (cells W H))%nat.
Proof.
  unfold nodes. apply countb_plus3. intros [x z] _.
  unfold at_, room, hdoor, vdoor. simpl.
  destruct (p x z) eqn:E; [|done]. apply (tl_parity _ _ _ T) in E. simpl.
  destruct (Z.eqb_spec (x mod 2) 1), (Z.eqb_spec (z mod 2) 1),
    (Z.eqb_spec (x mod 2) 0), (Z.eqb_spec (z mod 2) 0); simpl; lia.
Qed.

Lemma hedges_doors :
  countb (hedge p) (cells W H) = (2 * countb (hdoor p) (cells W H))%nat.
Proof.
  rewrite (countb_plus3 _ (hdoor p) (fun c => hdoor p (c.1 + 1, c.2))
             (fun _ => false)).
  - rewrite (countb_shift (fun c : coord => (c.1 + 1, c.2)) (hdoor p)).
    + rewrite (countb_never (fun _ => false)) by done. lia.
    + apply NoDup_cells.
    + intros [x z] _ [Hp _]%andb_true_iff. simpl in *.
      apply elem_of_cells. apply (tl_interior _ _ _ T) in Hp.
      unfold interior, inside in *. lia.
    + intros [x z] _ [Hp _]%andb_true_iff. simpl in *.
      exists (x - 1, z). split; [|simpl; f_equal; lia].
      apply elem_of_cells. apply (tl_interior _ _ _ T) in Hp.
      unfold interior, inside in *. lia.
  - intros [x z] _. unfold hedge, hdoor. simpl.
    destruct (p x z) eqn:E1, (p (x + 1) z) eqn:E2; simpl.
    + destruct (Z.eqb_spec (x mod 2) 0), (Z.eqb_spec ((x + 1) mod 2) 0); simpl; lia.
    + destruct (Z.eqb_spec (x mod 2) 0) as [Hx|]; [|done].
      destruct (tl_link_h _ _ _ T _ _ E1 Hx) as [_ E]. congruence.
    + destruct (Z.eqb_spec ((x + 1) mod 2) 0) as [Hx|]; [|done].
      destruct (tl_link_h _ _ _ T _ _ E2 Hx) as [E _].
      replace (x + 1 - 1) with x in E by lia. congruence.
    + done.
Qed.

Lemma vedges_doors :
  countb (vedge p) (cells W H) = (2 * countb (vdoor p) (cells W H))%nat.
Proof.
  rewrite (countb_plus3 _ (vdoor p) (fun c => vdoor p (c.1, c.2 + 1))
             (fun _ => false)).
  - rewrite (countb_shift (fun c : coord => (c.1, c.2 + 1)) (vdoor p)).
    + rewrite (countb_never (fun _ => false)) by done. lia.
    + apply NoDup_cells.
    + intros [x z] _ [Hp _]%andb_true_iff. simpl in *.
      apply elem_of_cells. apply (tl_interior _ _ _ T) in Hp.
      unfold interior, inside in *. lia.
    + intros [x z] _ [Hp _]%andb_true_iff. simpl in *.
      exists (x, z - 1). split; [|simpl; f_equal; lia].
      apply elem_of_cells. apply (tl_interior _ _ _ T) in Hp.
      unfold interior, inside in *. lia.
  - intros [x z] _. unfold vedge, vdoor. simpl.
    destruct (p x z) eqn:E1, (p x (z + 1)) eqn:E2; simpl.
    + destruct (Z.eqb_spec (z mod 2) 0), (Z.eqb_spec ((z + 1) mod 2) 0); simpl; lia.
    + destruct (Z.eqb_spec (z mod 2) 0) as [Hz|]; [|done].
      destruct (tl_link_v _ _ _ T _ _ E1 Hz) as [_ E]. congruence.
    + destruct (Z.eqb_spec ((z + 1) mod 2) 0) as [Hz|]; [|done].
      destruct (tl_link_v _ _ _ T _ _ E2 Hz) as [E _].
      replace (z + 1 - 1) with z in E by lia. congruence.
    + done.
Qed.

(** In a tree of rooms and doors there is one door less than rooms. *)
Lemma nodes_rooms : (nodes W H p + 1 = 2 * countb (room p) (cells W H))%nat.
Proof.
  pose proof (tl_edges _ _ _ T) as He. unfold edges in He.
  rewrite hedges_doors, vedges_doors in He. rewrite nodes_by_parity in *. lia.
Qed.

Lemma all_rooms_count :
  W mod 2 = 1 -> H mod 2 = 1 ->
  (forall x z, x mod 2 = 1 -> z mod 2 = 1 -> interior W H x z -> p x z = true) ->
  countb (room p) (cells W H) = (Z.to_nat ((H - 1) / 2) * Z.to_nat ((W - 1) / 2))%nat.
Proof.
  intros Hw Hh Hall. rewrite <- length_cells.
  rewrite <- (length_fmap (fun c : coord => (2 * c.1 + 1, 2 * c.2 + 1))).
  apply countb_as_length.
  - apply NoDup_cells.
  - apply (NoDup_fmap_2 _), NoDup_cells.
  - intros [x z]. rewrite list_elem_of_fmap, elem_of_cells. split.
    + intros ([a b] & [= -> ->] & Hab%elem_of_cells). simpl in *.
      unfold inside in *. split; [lia|]. unfold room. simpl.
      rewrite Hall by (unfold interior; lia).
      destruct (Z.eqb_spec ((2 * a + 1) mod 2) 1), (Z.eqb_spec ((2 * b + 1) mod 2) 1);
        simpl; lia.
    + intros [Hin [[_ Hx%Z.eqb_eq]%andb_true_iff Hz%Z.eqb_eq]%andb_true_iff].
      simpl in *. exists ((x - 1) / 2, (z - 1) / 2). split.
      * simpl. f_equal; lia.
      * apply elem_of_cells. unfold inside in *. lia.
Qed.

End Census.

Lemma generated_walls m g :
  generated m g ->
  (walls g + nodes (width m) (height m) (nonwall g)
   = Z.to_nat (height m) * Z.to_nat (width m))%nat.
Proof.
  intros G. unfold walls, nodes. rewrite (gen_width _ _ G), (gen_height _ _ G).
  rewrite <- length_cells.
  assert (Hlen : forall l : list coord, countb (fun _ => true) l = length l)
    by (induction l as [|a l IH]; simpl; [done|by rewrite IH]).
  rewrite <- Hlen.
  rewrite (countb_plus3 (fun _ => true)
             (fun c => strict_eq (cell g c.1 c.2) WALL) (at_ (nonwall g))
             (fun _ => false)).
  - rewrite (countb_never (fun _ => false)) by done. lia.
  - intros [x z] Hin%elem_of_cells. unfold at_, nonwall. simpl.
    assert (Hb : out_of_bounds g x z = false).
    { unfold out_of_bounds, inside in *. rewrite (gen_width _ _ G), (gen_height _ _ G).
      destruct (Z.ltb_spec x 0), (Z.geb_spec x (width m)), (Z.ltb_spec z 0),
        (Z.geb_spec z (height m)); simpl; (done || lia). }
    rewrite Hb. by destruct (gen_kinds _ _ G x z Hin) as [-> |[-> | ->]].
Qed.

Lemma generated_census m g :
  instance m -> 3 <= width m -> 3 <= height m -> generated m g ->
  Z.of_nat (nodes (width m) (height m) (nonwall g))
  = 2 * ((width m - 1) / 2) * ((height m - 1) / 2) - 1 /\
  Z.of_nat (walls g)
  = width m * height m - (2 * ((width m - 1) / 2) * ((height m - 1) / 2) - 1).
Proof.
  intros [Iw Ih _ _] Hw Hh G.
  pose proof (nodes_rooms _ _ _ (gen_tree _ _ G)) as Hn.
  rewrite (all_rooms_count _ _ _ Iw Ih (gen_rooms _ _ G)) in Hn.
  pose proof (generated_walls _ _ G) as Hwalls.
  split; nia.
Qed.

(** X8. For every constructor input with normalized width and height at
    least 3, [generate()] keeps the width, height, start and end that the
    constructor set, and the number of non-wall cells of the grid it returns
    does not depend on the random draws: it is twice the number of rooms,
    ((width-1)/2) * ((height-1)/2), minus one; all other cells of the grid
    are Wall. *)
Theorem generate_census (w h : Z) (r : Random) (fuel : nat) :
  3 <= width (constructor w h) -> 3 <= height (constructor w h) ->
  enough fuel (constructor w h) ->
  exists w', generate fuel {| this := constructor w h; rnd := r |} = Normal w' /\
    getWidth (this w') = getWidth (constructor w h) /\
    getHeight (this w') = getHeight (constructor w h) /\
    getStart (this w') = getStart (constructor w h) /\
    getEnd (this w') = getEnd (constructor w h) /\
    Z.of_nat (nodes (getWidth (constructor w h)) (getHeight (constructor w h)) (nonwall (this w')))
    = 2 * ((getWidth (constructor w h) - 1) / 2) * ((getHeight (constructor w h) - 1) / 2) - 1 /\
    Z.of_nat (walls (this w'))
    = getWidth (constructor w h) * getHeight (constructor w h)
      - (2 * ((getWidth (constructor w h) - 1) / 2) * ((getHeight (constructor w h) - 1) / 2) - 1).
Proof.
  intros Hw Hh Hfuel.
  pose proof (constructor_instance w h) as Hinst.
  destruct (generate_generated (constructor w h) r fuel Hinst Hw Hh Hfuel)
    as (w' & Hrun & G).
  exists w'. split; [exact Hrun|].
  destruct (generated_fields _ _ (constructor_instance w h) G) as (Tw & Th & Ts & Te).
  do 4 (split; [assumption|]). clear Tw Th Ts Te.
  unfold getWidth, getHeight.
  by apply generated_census.
Qed.

Lemma generate_census_witness :
  exists w', generate 63 {| this := constructor 7 9; rnd := rnd0 |} = Normal w' /\
    getWidth (this w') = getWidth (constructor 7 9) /\
    getHeight (this w') = getHeight (constructor 7 9) /\
    getStart (this w') = getStart (constructor 7 9) /\
    getEnd (this w') = getEnd (constructor 7 9) /\
    Z.of_nat (nodes (getWidth (constructor 7 9)) (getHeight (constructor 7 9)) (nonwall (this w')))
    = 2 * ((getWidth (constructor 7 9) - 1) / 2) * ((getHeight (constructor 7 9) - 1) / 2) - 1 /\
    Z.of_nat (walls (this w'))
    = getWidth (constructor 7 9) * getHeight (constructor 7 9)
      - (2 * ((getWidth (constructor 7 9) - 1) / 2) * ((getHeight (constructor 7 9) - 1) / 2) - 1).
Proof.
  apply (generate_census 7 9 rnd0 63); unfold enough; simpl; lia.
Defined.

(** ** The loops of the main application over the grid *)

Lemma forOf_app {A S : Type} (body : A -> S -> completion S) l1 l2 s :
  forOf body (l1 ++ l2) s = do s' <- forOf body l1 s ; forOf body l2 s'.
Proof.
  revert s. induction l1 as [|a l1 IH]; intros s; [done|].
  simpl. destruct (body a s); simpl; [apply IH|done..].
Qed.

Lemma forOf_fmap {A B S : Type} (f : A -> B) (body : B -> S -> completion S) l s :
  forOf body (f <$> l) s = forOf (fun a => body (f a)) l s.
Proof.
  revert s. induction l as [|a l IH]; intros s; [done|].
  simpl. destruct (body (f a) s); simpl; [apply IH|done..].
Qed.

(** Two nested loops are one loop over the pairs, row by row. *)
Lemma forOf_nested {S : Type} (body : coord -> S -> completion S) (lx lz : list Z) s :
  forOf (fun z s => forOf (fun x s => body (x, z) s) lx s) lz s
  = forOf body (z ← lz; (fun x => (x, z)) <$> lx) s.
Proof.
  revert s. induction lz as [|z lz IH]; intros s; [done|].
  rewrite bind_cons, forOf_app, forOf_fmap, forOf_cons.
  destruct (forOf _ lx s); simpl; [apply IH|done..].
Qed.

(** A loop whose body never throws folds a step function. *)
Lemma forOf_steps {A S : Type} (body : A -> S -> completion S) (step : S -> A -> S) l s :
  (forall a s, a ∈ l -> body a s = Normal (step s a)) ->
  forOf body l s = Normal (foldl step s l).
Proof.
  revert s. induction l as [|a l IH]; intros s Hbody; [done|].
  rewrite forOf_cons, Hbody by left. simpl. apply IH.
  intros b t Hb. apply Hbody. by right.
Qed.

Lemma grid_get_rows m x z :
  rows_ok m -> 0 <= z < height m -> grid_get (grid m) z x = Normal (cell m x z).
Proof.
  intros Hrows Hz. unfold grid_get, cell.
  destruct (grid_row_Some (grid m) z) as [row ->]; [|done].
  rewrite Hrows. lia.
Qed.

Lemma strict_eq_Some (o : option Z) (v : Z) : strict_eq o v = true <-> o = Some v.
Proof.
  destruct o as [u|]; simpl; [|done]. rewrite Z.eqb_eq. split; congruence.
Qed.

Lemma walls_wall_cells g : walls g = length (wall_cells g).
Proof.
  unfold walls, wall_cells. rewrite countb_filter. f_equal.
  apply list_filter_iff. intros c. apply strict_eq_Some.
Qed.

Lemma foldl_count {A} (f : A -> bool) (l : list A) (s : Z) :
  foldl (fun s a => if f a then s + 1 else s) s l = s + Z.of_nat (countb f l).
Proof.
  revert s. induction l as [|a l IH]; intros s; simpl; [lia|].
  rewrite IH. destruct (f a); lia.
Qed.

Lemma count_walls_spec g :
  rows_ok g ->
  count_walls (grid g) (width g) (height g) = Normal (Z.of_nat (walls g)).
Proof.
  intros Hrows. unfold count_walls.
  rewrite (forOf_nested
             (fun c wallCount =>
                do v <- grid_get (grid g) c.2 c.1 ;
                Normal (if strict_eq v WALL then wallCount + 1 else wallCount))).
  change (z ← seqZ 0 (height g); (fun x => (x, z)) <$> seqZ 0 (width g))
    with (cells (width g) (height g)).
  rewrite (forOf_steps _
             (fun s c => if strict_eq (cell g c.1 c.2) WALL then s + 1 else s)).
  - by rewrite (foldl_count (fun c => strict_eq (cell g c.1 c.2) WALL)).
  - intros [x z] s [_ Hz]%elem_of_cells. simpl. by rewrite grid_get_rows.
Qed.

Lemma foldl_place (f : coord -> bool) (l : list coord) (i : Z) (acc : list placement) :
  foldl (fun (s : Z * list placement) c =>
           if f c then (s.1 + 1, s.2 ++ [{| at_index := s.1; at_x := c.1 * cellSize;
                                            at_z := c.2 * cellSize |}])
           else s) (i, acc) l
  = (i + Z.of_nat (length (filter (fun c => f c = true) l)),
     acc ++ placed i (filter (fun c => f c = true) l)).
Proof.
  revert i acc. induction l as [|c l IH]; intros i acc; simpl.
  { by rewrite Z.add_0_r, app_nil_r. }
  destruct (f c) eqn:E.
  - rewrite filter_cons_True by done. rewrite IH. cbn [fst snd length].
    unfold placed. rewrite imap_cons, <- app_assoc. f_equal; [lia|].
    f_equal. cbn [app]. f_equal; [f_equal; lia|].
    apply imap_ext. intros k a _. simpl. f_equal. lia.
  - rewrite filter_cons_False by (rewrite E; done). apply IH.
Qed.

Lemma place_walls_spec g :
  rows_ok g ->
  place_walls (grid g) (width g) (height g)
  = Normal (Z.of_nat (walls g), placed 0 (wall_cells g)).
Proof.
  intros Hrows. unfold place_walls.
  rewrite (forOf_nested
             (fun c (s : Z * list placement) =>
                do v <- grid_get (grid g) c.2 c.1 ;
                Normal (if strict_eq v WALL
                        then (s.1 + 1,
                              s.2 ++ [{| at_index := s.1; at_x := c.1 * cellSize;
                                         at_z := c.2 * cellSize |}])
                        else s))).
  change (z ← seqZ 0 (height g); (fun x => (x, z)) <$> seqZ 0 (width g))
    with (cells (width g) (height g)).
  rewrite (forOf_steps _
             (fun (s : Z * list placement) c =>
                if strict_eq (cell g c.1 c.2) WALL
                then (s.1 + 1,
                      s.2 ++ [{| at_index := s.1; at_x := c.1 * cellSize;
                                 at_z := c.2 * cellSize |}])
                else s)).
  - rewrite (foldl_place (fun c => strict_eq (cell g c.1 c.2) WALL)).
    rewrite walls_wall_cells. unfold wall_cells.
    rewrite (list_filter_iff _ (fun c => cell g c.1 c.2 = Some WALL))
      by (intros c; apply strict_eq_Some).
    reflexivity.
  - intros [x z] s [_ Hz]%elem_of_cells. simpl. by rewrite grid_get_rows.
Qed.

Lemma placed_index i l : at_index <$> placed i l = seqZ i (Z.of_nat (length l)).
Proof.
  revert i. induction l as [|c l IH]; intros i; [done|].
  unfold placed in *. rewrite imap_cons, fmap_cons.
  rewrite (seqZ_cons i) by (cbn [length]; lia). f_equal; [simpl; lia|].
  replace (Z.pred (Z.of_nat (length (c :: l)))) with (Z.of_nat (length l))
    by (cbn [length]; lia).
  rewrite <- (IH (Z.succ i)). f_equal. apply imap_ext. intros k a _. simpl. f_equal. lia.
Qed.

Lemma placed_cells i l :
  (fun p => (at_x p, at_z p)) <$> placed i l
  = (fun c : coord => (c.1 * cellSize, c.2 * cellSize)) <$> l.
Proof.
  revert i. induction l as [|c l IH]; intros i; [done|].
  unfold placed in *. rewrite imap_cons, !fmap_cons. simpl. f_equal.
  rewrite <- (IH (Z.succ i)). f_equal. apply imap_ext. intros k a _. simpl. f_equal. lia.
Qed.

Lemma constructor_odd w h :
  w mod 2 = 1 -> h mod 2 = 1 ->
  width (constructor w h) = w /\ height (constructor w h) = h.
Proof.
  intros Hw Hh. simpl.
  destruct (Z.eqb_spec (Z.rem w 2) 0), (Z.eqb_spec (Z.rem h 2) 0); lia.
Qed.

(** X9. When [mazeWidth] and [mazeHeight] are odd and at least 3 (they are
    21 in the application), the two pairs of loops of [generateMaze] over the
    generated grid do not throw; [wallCount] is
    [mazeWidth * mazeHeight - (2 * ((mazeWidth-1)/2) * ((mazeHeight-1)/2) - 1)],
    whatever the random draws; and [setMatrixAt] is called with the indices
    0, 1, ..., wallCount-1 in this order, once for each wall cell of the grid
    taken row by row, at the position of that cell scaled by [cellSize]. *)
Theorem generateMaze_walls (mazeWidth mazeHeight : Z) (r : Random) (fuel : nat) :
  mazeWidth mod 2 = 1 -> mazeHeight mod 2 = 1 ->
  3 <= mazeWidth -> 3 <= mazeHeight ->
  enough fuel (constructor mazeWidth mazeHeight) ->
  exists w' wallCount calls,
    generate fuel {| this := constructor mazeWidth mazeHeight; rnd := r |} = Normal w' /\
    count_walls (grid (this w')) mazeWidth mazeHeight = Normal wallCount /\
    wallCount = mazeWidth * mazeHeight
                - (2 * ((mazeWidth - 1) / 2) * ((mazeHeight - 1) / 2) - 1) /\
    place_walls (grid (this w')) mazeWidth mazeHeight = Normal (wallCount, calls) /\
    at_index <$> calls = seqZ 0 wallCount /\
    (fun p => (at_x p, at_z p)) <$> calls
    = (fun c : coord => (c.1 * cellSize, c.2 * cellSize)) <$> wall_cells (this w').
Proof.
  intros Ow Oh Hw Hh Hfuel.
  destruct (constructor_odd _ _ Ow Oh) as [Ew Eh].
  pose proof (constructor_instance mazeWidth mazeHeight) as Hinst.
  destruct (generate_generated (constructor mazeWidth mazeHeight) r fuel Hinst)
    as (w' & Hrun & G); [lia|lia|exact Hfuel|].
  pose proof (gen_width _ _ G) as Gw. pose proof (gen_height _ _ G) as Gh.
  rewrite Ew in Gw. rewrite Eh in Gh.
  pose proof (count_walls_spec _ (gen_rows _ _ G)) as Hcount.
  pose proof (place_walls_spec _ (gen_rows _ _ G)) as Hplace.
  rewrite Gw, Gh in Hcount, Hplace.
  destruct (generated_census (constructor mazeWidth mazeHeight) (this w') Hinst)
    as [_ Hwalls]; [lia|lia|exact G|].
  rewrite Ew, Eh in Hwalls.
  exists w', (Z.of_nat (walls (this w'))), (placed 0 (wall_cells (this w'))).
  split_and!; try done.
  - rewrite placed_index. by rewrite walls_wall_cells.
  - apply placed_cells.
Qed.

Lemma generateMaze_walls_witness :
  exists w' wallCount calls,
    generate 15 {| this := constructor 5 3; rnd := rnd0 |} = Normal w' /\
    count_walls (grid (this w')) 5 3 = Normal wallCount /\
    wallCount = 5 * 3 - (2 * ((5 - 1) / 2) * ((3 - 1) / 2) - 1) /\
    place_walls (grid (this w')) 5 3 = Normal (wallCount, calls) /\
    at_index <$> calls = seqZ 0 wallCount /\
    (fun p => (at_x p, at_z p)) <$> calls
    = (fun c : coord => (c.1 * cellSize, c.2 * cellSize)) <$> wall_cells (this w').
Proof.
  apply (generateMaze_walls 5 3 rnd0 15); unfold enough; simpl; lia.
Defined.

(** ** [addTorches] *)

Lemma stride_elem n i bound step x :
  0 < step ->
  x ∈ stride n i bound step -> i <= x < bound /\ (x - i) mod step = 0.
Proof.
  intros Hstep. revert i. induction n as [|n IH]; intros i; simpl.
  { by intros ?%elem_of_nil. }
  destruct (Z.ltb_spec i bound); [|by intros ?%elem_of_nil].
  intros [->|Hx%IH]%elem_of_cons.
  - split; [lia|]. by rewrite Z.sub_diag.
  - split; [lia|]. destruct Hx as [_ Hx].
    replace (x - i) with (x - (i + step) + 1 * step) by lia.
    by rewrite Z.mod_add by lia.
Qed.

Lemma stride_complete n i bound step x :
  0 < step -> bound - i <= Z.of_nat n ->
  i <= x < bound -> (x - i) mod step = 0 -> x ∈ stride n i bound step.
Proof.
  intros Hstep. revert i. induction n as [|n IH]; intros i Hn Hx Hmod; [lia|].
  simpl. destruct (Z.ltb_spec i bound); [|lia].
  destruct (Z.eq_dec x i) as [->|Hne]; [left|right].
  assert (step <= x - i).
  { apply Z.mod_divide in Hmod as [k Hk]; [|lia].
    assert (0 < k) by (apply (Z.mul_pos_cancel_r k step); lia).
    rewrite Hk. replace step with (1 * step) at 1 by lia.
    apply Z.mul_le_mono_nonneg_r; lia. }
  apply IH; [lia|lia|].
  replace (x - (i + step)) with (x - i + (-1) * step) by lia.
  by rewrite Z.mod_add by lia.
Qed.

Lemma stride_NoDup n i bound step : 0 < step -> NoDup (stride n i bound step).
Proof.
  intros Hstep. revert i. induction n as [|n IH]; intros i; simpl; [constructor|].
  destruct (i <? bound); [|constructor]. constructor; [|apply IH].
  intros Hi%stride_elem; lia.
Qed.

Lemma sampled_elem mazeWidth mazeHeight x z :
  (x, z) ∈ sampled mazeWidth mazeHeight <->
  interior mazeWidth mazeHeight x z /\
  (x - 1) mod torchInterval = 0 /\ (z - 1) mod torchInterval = 0.
Proof.
  unfold sampled, interior, torchInterval. rewrite list_elem_of_bind. split.
  - intros (z' & Hx & Hz). apply list_elem_of_fmap in Hx as (x' & [= -> ->] & Hx).
    apply stride_elem in Hx, Hz; lia.
  - intros (Hint & Hx & Hz). exists z. split.
    + apply list_elem_of_fmap. exists x. split; [done|].
      apply stride_complete; lia.
    + apply stride_complete; lia.
Qed.

Lemma sampled_NoDup mazeWidth mazeHeight : NoDup (sampled mazeWidth mazeHeight).
Proof.
  unfold sampled. apply NoDup_bind.
  - intros z1 z2 c _ _ H1 H2.
    apply list_elem_of_fmap in H1 as (x1 & -> & _).
    apply list_elem_of_fmap in H2 as (x2 & Heq & _). by inversion Heq.
  - intros z _. apply NoDup_fmap_2; [|by apply stride_NoDup].
    intros x1 x2 Heq. by inversion Heq.
  - by apply stride_NoDup.
Qed.

Lemma first_wall_spec g x z ps :
  rows_ok g ->
  first_wall (grid g) (width g) (height g) x z ps = Normal (wall_side g x z ps).
Proof.
  intros Hrows. unfold wall_side. induction ps as [|pos ps IH]; [done|].
  cbn [first_wall]. cbv zeta.
  assert (Hb : forall cx cz,
             (cx >=? 0) && (cx <? width g) && (cz >=? 0) && (cz <? height g)
             = negb (out_of_bounds g cx cz)).
  { intros cx cz. unfold out_of_bounds.
    destruct (Z.geb_spec cx 0), (Z.ltb_spec cx (width g)), (Z.geb_spec cz 0),
      (Z.ltb_spec cz (height g)), (Z.ltb_spec cx 0), (Z.geb_spec cx (width g)),
      (Z.ltb_spec cz 0), (Z.geb_spec cz (height g)); simpl; (done || lia). }
  rewrite Hb. destruct (out_of_bounds g (x + dx pos) (z + dz pos)) eqn:E; simpl.
  - rewrite filter_cons_False by (intros [? _]; congruence). exact IH.
  - rewrite grid_get_rows; [|done|].
    2:{ unfold out_of_bounds in E.
        destruct (Z.ltb_spec (z + dz pos) 0), (Z.geb_spec (z + dz pos) (height g));
          [..|lia]; by rewrite ?orb_true_r in E. }
    simpl. destruct (strict_eq (cell g (x + dx pos) (z + dz pos)) WALL) eqn:Ew.
    + apply strict_eq_Some in Ew. by rewrite filter_cons_True.
    + rewrite filter_cons_False; [exact IH|].
      intros [_ Hc%strict_eq_Some]. congruence.
Qed.

Lemma wall_side_Some g x z ps pos :
  wall_side g x z ps = Some pos ->
  pos ∈ ps /\ out_of_bounds g (x + dx pos) (z + dz pos) = false /\
  cell g (x + dx pos) (z + dz pos) = Some WALL.
Proof.
  unfold wall_side. intros Hh%head_Some_elem_of.
  apply list_elem_of_filter in Hh. tauto.
Qed.

Lemma wall_side_None g x z ps pos :
  wall_side g x z ps = None -> pos ∈ ps ->
  out_of_bounds g (x + dx pos) (z + dz pos) = false ->
  cell g (x + dx pos) (z + dz pos) <> Some WALL.
Proof.
  unfold wall_side. intros Hh Hpos Hb Hc.
  assert (Hin : pos ∈ filter (fun pos => out_of_bounds g (x + dx pos) (z + dz pos) = false /\
                                 cell g (x + dx pos) (z + dz pos) = Some WALL) ps)
    by (by apply list_elem_of_filter).
  destruct (filter _ ps); [by apply elem_of_nil in Hin|done].
Qed.

Lemma foldl_app_bind {A B} (f : A -> list B) (l : list A) (s : list B) :
  foldl (fun s a => s ++ f a) s l = s ++ (l ≫= f).
Proof.
  revert s. induction l as [|a l IH]; intros s.
  - simpl. by rewrite app_nil_r.
  - cbn [foldl]. rewrite IH, bind_cons. by rewrite app_assoc.
Qed.

Lemma addTorches_spec g :
  rows_ok g ->
  addTorches (grid g) (width g) (height g)
  = Normal (sampled (width g) (height g) ≫= torch_of g).
Proof.
  intros Hrows. unfold addTorches.
  rewrite (forOf_nested
             (fun c torchLights =>
                do v <- grid_get (grid g) c.2 c.1 ;
                if strict_eq v PASSAGE then
                  do side <- first_wall (grid g) (width g) (height g) c.1 c.2 positions ;
                  match side with
                  | Some pos =>
                      Normal (torchLights
                              ++ [{| torch_x := c.1; torch_z := c.2; torch_pos := pos |}])
                  | None => Normal torchLights
                  end
                else Normal torchLights)).
  change (z ← stride _ 1 (height g - 1) torchInterval;
          (fun x => (x, z)) <$> stride _ 1 (width g - 1) torchInterval)
    with (sampled (width g) (height g)).
  rewrite (forOf_steps _ (fun s c => s ++ torch_of g c)).
  - by rewrite foldl_app_bind.
  - intros [x z] s Hin%sampled_elem. destruct Hin as [[_ Hz] _]. cbn [fst snd].
    rewrite grid_get_rows by (done || lia). cbn [bind]. unfold torch_of.
    cbn [fst snd].
    destruct (strict_eq (cell g x z) PASSAGE); [|by rewrite app_nil_r].
    rewrite first_wall_spec by done. cbn [bind].
    destruct (wall_side g x z positions); [done|by rewrite app_nil_r].
Qed.

Lemma torch_of_elem g c t :
  t ∈ torch_of g c <->
  cell g c.1 c.2 = Some PASSAGE /\ torch_x t = c.1 /\ torch_z t = c.2 /\
  wall_side g c.1 c.2 positions = Some (torch_pos t).
Proof.
  unfold torch_of. destruct (strict_eq (cell g c.1 c.2) PASSAGE) eqn:E.
  - apply strict_eq_Some in E.
    destruct (wall_side g c.1 c.2 positions) as [pos|].
    + rewrite list_elem_of_singleton. split.
      * intros ->. done.
      * intros (_ & Hx & Hz & [= Hp]). destruct t. simpl in *. congruence.
    + rewrite elem_of_nil. split; [done|]. by intros (_ & _ & _ & ?).
  - rewrite elem_of_nil. split; [done|]. intros [Hc _].
    apply strict_eq_Some in Hc. congruence.
Qed.

Lemma torches_NoDup g l : NoDup l -> NoDup (l ≫= torch_of g).
Proof.
  intros Hl. apply NoDup_bind; [| |done].
  - intros [x1 z1] [x2 z2] t _ _ (_ & Hx1 & Hz1 & _)%torch_of_elem
      (_ & Hx2 & Hz2 & _)%torch_of_elem. simpl in *. congruence.
  - intros c _. unfold torch_of. destruct (strict_eq _ _); [|constructor].
    destruct (wall_side _ _ _ _); [apply NoDup_singleton|constructor].
Qed.

(** X10. When [mazeWidth] and [mazeHeight] are odd and at least 3,
    [addTorches()] on the generated grid does not throw.  Every torch is
    added for a cell strictly inside the border whose coordinates are 1
    modulo [torchInterval], which holds Passage, and is placed with a [pos]
    of [positions] that leads to a Wall cell; no cell gets two torches and
    the exit cell gets none; and every such cell other than the exit that
    has a Wall cell next to it gets a torch. *)
Theorem addTorches_generated (mazeWidth mazeHeight : Z) (r : Random) (fuel : nat) :
  mazeWidth mod 2 = 1 -> mazeHeight mod 2 = 1 ->
  3 <= mazeWidth -> 3 <= mazeHeight ->
  enough fuel (constructor mazeWidth mazeHeight) ->
  exists w' torchLights,
    generate fuel {| this := constructor mazeWidth mazeHeight; rnd := r |} = Normal w' /\
    addTorches (grid (this w')) mazeWidth mazeHeight = Normal torchLights /\
    NoDup torchLights /\
    (forall t, t ∈ torchLights ->
       interior mazeWidth mazeHeight (torch_x t) (torch_z t) /\
       (torch_x t - 1) mod torchInterval = 0 /\
       (torch_z t - 1) mod torchInterval = 0 /\
       cell (this w') (torch_x t) (torch_z t) = Some PASSAGE /\
       torch_pos t ∈ positions /\
       cell (this w') (torch_x t + dx (torch_pos t)) (torch_z t + dz (torch_pos t))
       = Some WALL) /\
    (forall t1 t2, t1 ∈ torchLights -> t2 ∈ torchLights ->
       torch_x t1 = torch_x t2 -> torch_z t1 = torch_z t2 -> t1 = t2) /\
    (forall t, t ∈ torchLights ->
       ~ (torch_x t = px (getEnd (this w')) /\ torch_z t = pz (getEnd (this w')))) /\
    (forall x z pos,
       interior mazeWidth mazeHeight x z ->
       (x - 1) mod torchInterval = 0 -> (z - 1) mod torchInterval = 0 ->
       ~ (x = px (getEnd (this w')) /\ z = pz (getEnd (this w'))) ->
       pos ∈ positions ->
       cell (this w') (x + dx pos) (z + dz pos) = Some WALL ->
       exists t, t ∈ torchLights /\ torch_x t = x /\ torch_z t = z).
Proof.
  intros Ow Oh Hw Hh Hfuel.
  destruct (constructor_odd _ _ Ow Oh) as [Ew Eh].
  pose proof (constructor_instance mazeWidth mazeHeight) as Hinst.
  destruct (generate_generated (constructor mazeWidth mazeHeight) r fuel Hinst)
    as (w' & Hrun & G); [lia|lia|exact Hfuel|].
  pose proof (gen_width _ _ G) as Gw. pose proof (gen_height _ _ G) as Gh.
  pose proof (gen_end _ _ G) as Ge.
  rewrite Ew in Gw. rewrite Eh in Gh. rewrite Ew, Eh in Ge.
  pose proof (addTorches_spec _ (gen_rows _ _ G)) as Hspec. rewrite Gw, Gh in Hspec.
  exists w', (sampled mazeWidth mazeHeight ≫= torch_of (this w')).
  split; [exact Hrun|]. split; [exact Hspec|].
  unfold getEnd. rewrite Ge. cbn [px pz].
  assert (Hin : forall t, t ∈ sampled mazeWidth mazeHeight ≫= torch_of (this w') ->
            (torch_x t, torch_z t) ∈ sampled mazeWidth mazeHeight /\
            t ∈ torch_of (this w') (torch_x t, torch_z t)).
  { intros t ([x z] & Ht & Hc)%list_elem_of_bind.
    pose proof Ht as (_ & Hx & Hz & _)%torch_of_elem. simpl in Hx, Hz.
    by rewrite Hx, Hz. }
  split_and!.
  - apply torches_NoDup, sampled_NoDup.
  - intros t [Hs Ht]%Hin. apply sampled_elem in Hs as (Hint & Hx & Hz).
    apply torch_of_elem in Ht as (Hc & _ & _ & Hside). simpl in Hc, Hside.
    apply wall_side_Some in Hside as (Hpos & _ & Hwall). done.
  - intros t1 t2 [_ H1]%Hin [_ H2]%Hin Hx Hz. rewrite Hx, Hz in H1.
    apply torch_of_elem in H1 as (_ & _ & _ & S1), H2 as (_ & _ & _ & S2).
    simpl in S1, S2. destruct t1, t2. simpl in *. congruence.
  - intros t [Hs Ht]%Hin [Hx Hz].
    apply torch_of_elem in Ht as (Hc & _). simpl in Hc. rewrite Hx, Hz in Hc.
    assert (Hend : cell (this w') (mazeWidth - 2) (mazeHeight - 2) = Some EXIT).
    { apply (gen_exit _ _ G); rewrite Ew, Eh; [unfold inside|]; lia. }
    rewrite Hend in Hc. discriminate Hc.
  - intros x z pos Hint Hx Hz Hne Hpos Hwall.
    assert (Hc : cell (this w') x z = Some PASSAGE).
    { unfold torchInterval in *.
      assert (Hnw : nonwall (this w') x z = true)
        by (apply (gen_rooms _ _ G); rewrite ?Ew, ?Eh; (done || lia)).
      assert (Hi : inside (width (constructor mazeWidth mazeHeight))
                     (height (constructor mazeWidth mazeHeight)) x z)
        by (rewrite Ew, Eh; unfold interior, inside in *; lia).
      destruct (gen_kinds _ _ G x z Hi) as [E|[E|E]]; [done| |].
      - unfold nonwall in Hnw. rewrite E in Hnw. simpl in Hnw.
        by rewrite andb_false_r in Hnw.
      - apply (gen_exit _ _ G _ _ Hi) in E. rewrite Ew, Eh in E. tauto. }
    destruct (wall_side (this w') x z positions) as [side|] eqn:Hside.
    + exists {| torch_x := x; torch_z := z; torch_pos := side |}.
      split; [|done]. apply list_elem_of_bind. exists (x, z). split.
      * by apply torch_of_elem.
      * by apply sampled_elem.
    + exfalso. apply (wall_side_None _ _ _ _ pos Hside Hpos); [|done].
      unfold out_of_bounds. rewrite Gw, Gh.
      assert (Hd : -1 <= dx pos <= 1 /\ -1 <= dz pos <= 1).
      { unfold positions in Hpos. rewrite !elem_of_cons, elem_of_nil in Hpos.
        destruct Hpos as [->|[->|[->|[->|[]]]]]; simpl; lia. }
      unfold interior in Hint.
      destruct (Z.ltb_spec (x + dx pos) 0), (Z.geb_spec (x + dx pos) mazeWidth),
        (Z.ltb_spec (z + dz pos) 0), (Z.geb_spec (z + dz pos) mazeHeight);
        simpl; (done || lia).
Qed.

Lemma addTorches_generated_witness :
  exists w' torchLights,
    generate 63 {| this := constructor 9 7; rnd := rnd0 |} = Normal w' /\
    addTorches (grid (this w')) 9 7 = Normal torchLights /\
    NoDup torchLights /\
    (forall t, t ∈ torchLights ->
       interior 9 7 (torch_x t) (torch_z t) /\
       (torch_x t - 1) mod torchInterval = 0 /\
       (torch_z t - 1) mod torchInterval = 0 /\
       cell (this w') (torch_x t) (torch_z t) = Some PASSAGE /\
       torch_pos t ∈ positions /\
       cell (this w') (torch_x t + dx (torch_pos t)) (torch_z t + dz (torch_pos t))
       = Some WALL) /\
    (forall t1 t2, t1 ∈ torchLights -> t2 ∈ torchLights ->
       torch_x t1 = torch_x t2 -> torch_z t1 = torch_z t2 -> t1 = t2) /\
    (forall t, t ∈ torchLights ->
       ~ (torch_x t = px (getEnd (this w')) /\ torch_z t = pz (getEnd (this w')))) /\
    (forall x z pos,
       interior 9 7 x z ->
       (x - 1) mod torchInterval = 0 -> (z - 1) mod torchInterval = 0 ->
       ~ (x = px (getEnd (this w')) /\ z = pz (getEnd (this w'))) ->
       pos ∈ positions ->
       cell (this w') (x + dx pos) (z + dz pos) = Some WALL ->
       exists t, t ∈ torchLights /\ torch_x t = x /\ torch_z t = z).
Proof.
  apply (addTorches_generated 9 7 rnd0 63); unfold enough; simpl; lia.
Defined.

(** ** The random numbers that [generate] uses *)

Lemma assign_cells z x v w w' :
  assign z x v w = Normal w' ->
  rnd w' = rnd w /\ frame (this w) (this w') /\
  forall a b, cell (this w') a b
              = if (a =? x) && (b =? z) then Some v else cell (this w) a b.
Proof.
  intros Hrun.
  destruct (decide (0 <= z < Z.of_nat (length (grid (this w))))) as [Hz|Hz].
  - destruct (assign_spec z x v w Hz) as (u & Hu & H1 & H2 & H3).
    rewrite Hu in Hrun. by injection Hrun as <-.
  - by rewrite assign_throws in Hrun.
Qed.

Lemma rooms_add_door W H p x z :
  x mod 2 = 0 \/ z mod 2 = 0 ->
  countb (room (add x z p)) (cells W H) = countb (room p) (cells W H).
Proof.
  intros Hpar. apply countb_ext. intros [a b] _. unfold room, add. simpl.
  destruct (Z.eqb_spec a x) as [->|], (Z.eqb_spec b z) as [->|]; simpl;
    rewrite ?orb_false_r; try done.
  destruct (p x z); simpl; [done|].
  destruct (Z.eqb_spec (x mod 2) 1), (Z.eqb_spec (z mod 2) 1); simpl; (done || lia).
Qed.

Lemma rooms_add_room W H p x z :
  inside W H x z -> x mod 2 = 1 -> z mod 2 = 1 -> p x z = false ->
  countb (room (add x z p)) (cells W H) = S (countb (room p) (cells W H)).
Proof.
  intros Hin Hx Hz Hp.
  rewrite (countb_plus3 _ (room p) (fun c => (c.1 =? x) && (c.2 =? z) && true)
             (fun _ => false)).
  - rewrite count_point by done. rewrite (countb_never (fun _ => false)) by done.
    simpl. lia.
  - intros [a b] _. unfold room, add. simpl.
    destruct (Z.eqb_spec a x) as [->|], (Z.eqb_spec b z) as [->|]; simpl;
      rewrite ?orb_false_r, ?Nat.add_0_r; try done.
    rewrite Hp. simpl.
    destruct (Z.eqb_spec (x mod 2) 1), (Z.eqb_spec (z mod 2) 1); simpl; (done || lia).
Qed.

Lemma roomcount_ext m m' :
  width m' = width m -> height m' = height m ->
  (forall a b, nonwall m' a b = nonwall m a b) -> roomcount m' = roomcount m.
Proof.
  intros Ew Eh Hnw. unfold roomcount. rewrite Ew, Eh.
  apply countb_ext. intros [a b] _. unfold room. simpl. by rewrite Hnw.
Qed.

(** The effect on the open rooms of writing Passage at [(x, z)]. *)
Lemma assign_roomcount z x w w' :
  assign z x PASSAGE w = Normal w' ->
  rnd w' = rnd w /\ frame (this w) (this w') /\
  (forall a b, (a, b) <> (x, z) -> nonwall (this w') a b = nonwall (this w) a b) /\
  (x mod 2 = 0 \/ z mod 2 = 0 -> roomcount (this w') = roomcount (this w)) /\
  (x mod 2 = 1 -> z mod 2 = 1 -> inside (width (this w)) (height (this w)) x z ->
   nonwall (this w) x z = false -> roomcount (this w') = S (roomcount (this w))).
Proof.
  intros (Hrnd & Hfr & Hcell)%assign_cells.
  pose proof Hfr as (Fw & Fh & _).
  assert (Hnw : forall a b, nonwall (this w') a b
                = if out_of_bounds (this w) x z then nonwall (this w) a b
                  else add x z (nonwall (this w)) a b).
  { intros a b. unfold nonwall at 1, out_of_bounds at 1. rewrite Fw, Fh, Hcell.
    fold (out_of_bounds (this w) a b). unfold add.
    destruct (Z.eqb_spec a x) as [->|], (Z.eqb_spec b z) as [->|]; simpl;
      rewrite ?orb_false_r; try by destruct (out_of_bounds (this w) x z).
    destruct (out_of_bounds (this w) x z) eqn:E; simpl.
    - unfold nonwall. by rewrite E.
    - by rewrite orb_true_r. }
  split; [done|]. split; [done|]. split_and!.
  - intros a b Hne. rewrite Hnw. destruct (out_of_bounds (this w) x z); [done|].
    unfold add. destruct (Z.eqb_spec a x), (Z.eqb_spec b z); simpl;
      rewrite ?orb_false_r; try done. congruence.
  - intros Hpar. unfold roomcount. rewrite Fw, Fh.
    rewrite <- (rooms_add_door _ _ (nonwall (this w)) x z Hpar).
    destruct (out_of_bounds (this w) x z) eqn:E.
    + rewrite (rooms_add_door _ _ _ _ _ Hpar).
      apply countb_ext. intros [a b] _. unfold room. simpl. by rewrite Hnw.
    + apply countb_ext. intros [a b] _. unfold room. simpl. by rewrite Hnw.
  - intros Hx Hz Hin Hp. unfold roomcount. rewrite Fw, Fh.
    rewrite <- (rooms_add_room _ _ (nonwall (this w)) x z Hin Hx Hz Hp).
    assert (E : out_of_bounds (this w) x z = false).
    { unfold out_of_bounds, inside in *.
      destruct (Z.ltb_spec x 0), (Z.geb_spec x (width (this w))), (Z.ltb_spec z 0),
        (Z.geb_spec z (height (this w))); simpl; (done || lia). }
    apply countb_ext. intros [a b] _. unfold room. simpl. by rewrite Hnw, E.
Qed.

Lemma admissible_wall m a b :
  admissible m a b = Normal true ->
  interior (width m) (height m) a b /\ nonwall m a b = false.
Proof.
  intros Ha. pose proof (admissible_true _ _ _ Ha) as Hint.
  split; [exact Hint|]. unfold admissible in Ha.
  destruct ((0 <? a) && (a <? width m - 1) && (0 <? b) && (b <? height m - 1));
    [|done].
  unfold grid_get in Ha. unfold nonwall, cell.
  destruct (grid_row (grid m) b) as [row|]; [|done]. simpl in Ha.
  injection Ha as Ha. destruct (arr_get a row) as [v|]; [|done]. simpl in *.
  apply Z.eqb_eq in Ha as ->. by rewrite andb_false_r.
Qed.

Lemma carvePassages_draws fuel :
  forall x z w w', carvePassages fuel x z w = Normal w' ->
    x mod 2 = 1 -> z mod 2 = 1 ->
    inside (width (this w)) (height (this w)) x z ->
    nonwall (this w) x z = false ->
    exists k : nat,
      (forall j, rnd w' j = rnd w (3 * k + j)%nat) /\
      roomcount (this w') = (roomcount (this w) + k)%nat.
Proof.
  induction fuel as [|fuel IH]; intros x z w w'; [done|].
  rewrite carvePassages_S.
  destruct (assign z x PASSAGE w) as [w1| |] eqn:E1; [|done..]. cbn [bind].
  destruct (shuffleArray directions (rnd w1)) as [dirs r] eqn:Hsh.
  intros Hloop Hx Hz Hin Hwall.
  apply assign_roomcount in E1 as (Hrnd & _ & _ & _ & Hroom).
  specialize (Hroom Hx Hz Hin Hwall).
  assert (Hdirs : forall d, d ∈ dirs -> d ∈ directions).
  { intros d. rewrite <- (shuffleArray_elem directions (rnd w1)). by rewrite Hsh. }
  assert (Hr : forall j, r j = rnd w (3 + j)%nat).
  { intros j. change r with (dirs, r).2. rewrite <- Hsh, <- Hrnd.
    apply (shuffle_loop_rest 3). }
  assert (Hstart : exists k : nat,
             (forall j, rnd {| this := this w1; rnd := r |} j = rnd w (3 * k + j)%nat) /\
             roomcount (this {| this := this w1; rnd := r |})
             = (roomcount (this w) + k)%nat).
  { exists 1%nat. split; [intros j; apply Hr|]. cbn [this]. lia. }
  clear Hsh Hr Hroom Hrnd Hin Hwall.
  revert Hloop Hstart. generalize {| this := this w1; rnd := r |}. clear w1 r.
  induction dirs as [|d ds IHds]; intros u Hloop (k & Hk & Hrooms).
  { injection Hloop as <-. by exists k. }
  rewrite forOf_cons in Hloop. unfold carve_step at 1 in Hloop. cbv zeta in Hloop.
  destruct (admissible (this u) (x + dx d) (z + dz d)) as [[|]| |] eqn:Ea;
    cbn [bind] in Hloop; try done.
  - apply admissible_wall in Ea as [Hint Hnew].
    destruct (assign (z + dz d / 2) (x + dx d / 2) PASSAGE u) as [u1| |] eqn:E2;
      [|done..]. cbn [bind] in Hloop.
    destruct (carvePassages fuel (x + dx d) (z + dz d) u1) as [u2| |] eqn:E3;
      [|done..]. cbn [bind] in Hloop.
    pose proof (dir_cases d (Hdirs d ltac:(left))) as Hd.
    apply assign_roomcount in E2 as (Hrnd & (Fw & Fh & _) & Hsame & Hdoor & _).
    assert (Hd1 : roomcount (this u1) = roomcount (this u))
      by (apply Hdoor; destruct Hd as [[Ex Ez]|[[Ex Ez]|[[Ex Ez]|[Ex Ez]]]];
          rewrite Ex, Ez; lia).
    destruct (IH _ _ _ _ E3) as (k1 & Hk1 & Hrooms1).
    + destruct Hd as [[Ex Ez]|[[Ex Ez]|[[Ex Ez]|[Ex Ez]]]]; rewrite Ex; lia.
    + destruct Hd as [[Ex Ez]|[[Ex Ez]|[[Ex Ez]|[Ex Ez]]]]; rewrite Ez; lia.
    + rewrite Fw, Fh. unfold interior, inside in *. lia.
    + rewrite Hsame; [done|].
      intros Heq. pose proof (f_equal fst Heq) as Hf.
      pose proof (f_equal snd Heq) as Hs. simpl in Hf, Hs.
      destruct Hd as [[Ex Ez]|[[Ex Ez]|[[Ex Ez]|[Ex Ez]]]]; rewrite Ex, Ez in *; lia.
    + apply (IHds (fun d' Hd' => Hdirs d' ltac:(by right)) u2 Hloop).
      exists (k + k1)%nat. split.
      * intros j. rewrite Hk1, Hrnd, Hk. f_equal. lia.
      * lia.
  - apply (IHds (fun d' Hd' => Hdirs d' ltac:(by right)) u Hloop).
    by exists k.
Qed.

Lemma generate_rnd fuel w wc w' :
  carvePassages fuel 1 1 {| this := fresh (this w); rnd := rnd w |} = Normal wc ->
  generate fuel w = Normal w' -> rnd w' = rnd wc.
Proof.
  intros Hc. unfold generate.
  change (set_grid (wall_grid (this w)) (this w)) with (fresh (this w)).
  rewrite Hc. cbn [bind].
  destruct (assign _ _ PASSAGE wc) as [w2| |] eqn:E2; [|done..]. cbn [bind].
  destruct (assign _ _ PASSAGE w2) as [w3| |] eqn:E3; [|done..]. cbn [bind].
  intros E4. apply assign_cells in E2 as [R2 _], E3 as [R3 _], E4 as [R4 _].
  congruence.
Qed.

(** X11. For every constructor input with normalized width and height at
    least 3, [generate()] keeps the width, height, start and end that the
    constructor set and calls [Math.random] exactly three times for each
    room, that is 3 * ((width-1)/2) * ((height-1)/2) times for the
    constructor's width and height, whatever the draws: the random source it
    leaves starts at that draw. *)
Theorem generate_draws (w h : Z) (r : Random) (fuel : nat) :
  3 <= width (constructor w h) -> 3 <= height (constructor w h) ->
  enough fuel (constructor w h) ->
  exists w', generate fuel {| this := constructor w h; rnd := r |} = Normal w' /\
    getWidth (this w') = getWidth (constructor w h) /\
    getHeight (this w') = getHeight (constructor w h) /\
    getStart (this w') = getStart (constructor w h) /\
    getEnd (this w') = getEnd (constructor w h) /\
    forall j, rnd w' j
              = r (3 * Z.to_nat ((getWidth (constructor w h) - 1) / 2
                                 * ((getHeight (constructor w h) - 1) / 2)) + j)%nat.
Proof.
  intros Hw Hh Hfuel.
  pose proof (constructor_instance w h) as Hinst.
  destruct (generate_spec (constructor w h) r fuel Hinst Hw Hh Hfuel)
    as (wc & w' & Hcarve & Hrun & Fc & Ff & Hok & T & Hrooms & _).
  exists w'. split; [exact Hrun|].
  destruct (generate_generated (constructor w h) r fuel Hinst Hw Hh Hfuel)
    as (w'' & Hrun' & G).
  rewrite Hrun in Hrun'. injection Hrun' as <-.
  destruct (generated_fields _ _ (constructor_instance w h) G) as (Tw & Th & Ts & Te).
  do 4 (split; [assumption|]). clear Tw Th Ts Te.
  clear G.
  rewrite (generate_rnd _ {| this := constructor w h; rnd := r |} _ _ Hcarve Hrun).
  unfold getWidth, getHeight.
  destruct (carvePassages_draws _ _ _ _ _ Hcarve) as (k & Hk & Hcount).
  { lia. }
  { lia. }
  { cbn [this]. unfold inside.
    change (width (fresh (constructor w h))) with (width (constructor w h)).
    change (height (fresh (constructor w h))) with (height (constructor w h)). lia. }
  { apply fresh_nonwall. }
  cbn [this rnd] in Hk, Hcount.
  assert (H0 : roomcount (fresh (constructor w h)) = 0%nat).
  { apply countb_never. intros [a b] _. unfold room. simpl. by rewrite fresh_nonwall. }
  assert (HR : roomcount (this wc)
               = (Z.to_nat ((height (constructor w h) - 1) / 2)
                  * Z.to_nat ((width (constructor w h) - 1) / 2))%nat).
  { unfold roomcount. rewrite (ok_width _ _ _ Hok), (ok_height _ _ _ Hok).
    destruct Hinst as [Iw Ih _ _].
    apply (all_rooms_count _ _ _ Iw Ih). intros x z Hx Hz Hint.
    unfold nonwall.
    rewrite (inside_in_bounds _ _ _ _ _ Hok (interior_inside _ _ _ _ Hint)).
    by rewrite (Hrooms _ _ Hx Hz Hint). }
  intros j. rewrite Hk. f_equal.
  rewrite Z2Nat.inj_mul by lia. lia.
Qed.

Lemma generate_draws_witness :
  exists w', generate 35 {| this := constructor 5 7; rnd := rnd0 |} = Normal w' /\
    getWidth (this w') = getWidth (constructor 5 7) /\
    getHeight (this w') = getHeight (constructor 5 7) /\
    getStart (this w') = getStart (constructor 5 7) /\
    getEnd (this w') = getEnd (constructor 5 7) /\
    forall j, rnd w' j
              = rnd0 (3 * Z.to_nat ((getWidth (constructor 5 7) - 1) / 2
                                 * ((getHeight (constructor 5 7) - 1) / 2)) + j)%nat.
Proof.
  apply (generate_draws 5 7 rnd0 35); unfold enough; simpl; lia.
Defined.
